(** * The object register and object factory of [objectregister.hpp]

    A shallow embedding of the string-keyed, type-indexed object register
    ([Register<T>], [ObjectRegister]), of the string conversions
    ([ResetFromString]) and of the object factory ([MakeObject],
    [ObjectFactory]), followed by the properties of these operations.

    Conventions of the embedding:
    - [std::map<string, V>] is a [gmap string V]; wherever the code iterates
      over a map, the embedding iterates over [std_map_items], the entries in
      ascending key order, as [std::map] iterators do;
    - [std::multimap] is a key-sorted association list, duplicates kept;
    - the members are registered by address: a registered value is an address
      into a [heap] of typed cells, and [Reset] writes through it;
    - a C++ exception leaves the state as it was when it was thrown, so a
      computation returns an [outcome] together with the state reached. *)

From Stdlib Require Import String Ascii List NArith.
From Stdlib Require OrderedTypeEx.
From stdpp Require Import gmap strings list sorting.

Local Open Scope string_scope.
#[local] Set Warnings "-register-all".

(* ================================================================== *)
(** ** Strings: ordering, case folding, tokenising *)

(** [operator<] of [std::string] orders the keys of every [std::map]. *)
Definition key_le {V : Type} (x y : string * V) : Prop :=
  String.leb x.1 y.1 = true.

#[global] Instance key_le_dec {V : Type} (x y : string * V) :
  Decision (key_le x y).
Proof. unfold key_le. apply _. Defined.

(** The entries of a [std::map] in the order [begin() .. end()] visits them. *)
Definition std_map_items {V : Type} (m : gmap string V) : list (string * V) :=
  merge_sort key_le (map_to_list m).

(** [::tolower] in the "C" locale. *)
Definition tolower (c : ascii) : ascii :=
  let n := N_of_ascii c in
  if ((65 <=? n) && (n <=? 90))%N then ascii_of_N (n + 32) else c.

(** [std::transform(s.begin(), s.end(), s.begin(), f)]. *)
Fixpoint transform (f : ascii -> ascii) (s : string) : string :=
  match s with
  | EmptyString => EmptyString
  | String c s' => String (f c) (transform f s')
  end.

(** Equality of strings when case is ignored, as the specification uses the
    words, and not by way of [tolower]: two characters are the same letter
    when they are equal, or when one is a capital letter of ASCII and the
    other is the small letter, 32 places behind it. *)
Definition is_capital (c : ascii) : bool :=
  ((65 <=? N_of_ascii c) && (N_of_ascii c <=? 90))%N.

Definition is_small (c : ascii) : bool :=
  ((97 <=? N_of_ascii c) && (N_of_ascii c <=? 122))%N.

Definition same_letter (a b : ascii) : bool :=
  Ascii.eqb a b
  || (is_capital a && (N_of_ascii b =? N_of_ascii a + 32)%N)
  || (is_capital b && (N_of_ascii a =? N_of_ascii b + 32)%N).

Fixpoint eq_ignore_case (s t : string) : bool :=
  match s, t with
  | EmptyString, EmptyString => true
  | String a s', String b t' => same_letter a b && eq_ignore_case s' t'
  | _, _ => false
  end.

Fixpoint small_letters (s : string) : bool :=
  match s with
  | EmptyString => true
  | String c s' => is_small c && small_letters s'
  end.

Fixpoint is_delim (seps : string) (c : ascii) : bool :=
  match seps with
  | EmptyString => false
  | String d seps' => if Ascii.eqb c d then true else is_delim seps' c
  end.

(** [boost::tokenizer<boost::char_separator<char> >] built from
    [char_separator<char> sep(seps)]: every character of [seps] is a dropped
    delimiter, there are no kept delimiters and empty tokens are dropped.
    [cur] is the token being read. *)
Fixpoint tokens_from (seps cur s : string) : list string :=
  match s with
  | EmptyString => if String.eqb cur EmptyString then [] else [cur]
  | String c s' =>
      if is_delim seps c
      then (if String.eqb cur EmptyString then tokens_from seps EmptyString s'
            else cur :: tokens_from seps EmptyString s')
      else tokens_from seps (cur ++ String c EmptyString) s'
  end.

Definition tokenizer (seps s : string) : list string :=
  tokens_from seps EmptyString s.

(** No character of [s] is a delimiter. *)
Fixpoint delim_free (seps s : string) : bool :=
  match s with
  | EmptyString => true
  | String c s' => negb (is_delim seps c) && delim_free seps s'
  end.

(** The string form of a collection in the documentation of the register,
    "a comma-separated list enclosed by brackets", as in [[mersey, forth]]. *)
Definition collection_string (elems : list string) : string :=
  "[" ++ String.concat ", " elems ++ "]".

(* ================================================================== *)
(** ** Register strings *)

Definition gRegStringSeps : string := ".".
Definition gRegStringFunction : string := "function".
Definition gRegStringCollection : string := "collection".
Definition gRegStringFile : string := "file".

(** A string of one to three components, separated by [gRegStringSeps]. The
    defaulted arguments of the C++ declaration are passed as the empty string. *)
Definition RegisterString (aFirst aSecond aThird : string) : string :=
  if String.eqb aSecond EmptyString then aFirst
  else if String.eqb aThird EmptyString then aFirst ++ gRegStringSeps ++ aSecond
  else aFirst ++ gRegStringSeps ++ aSecond ++ gRegStringSeps ++ aThird.

Definition FunctionRegisterString (aFunctionName : string) : string :=
  RegisterString gRegStringFunction aFunctionName EmptyString.
Definition FileRegisterString (aFileName : string) : string :=
  RegisterString gRegStringFile aFileName EmptyString.
Definition CollectionRegisterString (aCollectionName : string) : string :=
  RegisterString gRegStringCollection aCollectionName EmptyString.

(** [MemberRegisterString(aObject, aVarName)], for an object whose
    [ClassName()] and [Name()] are the two first arguments. *)
Definition MemberRegisterString (aClassName aName aVarName : string) : string :=
  RegisterString aClassName aName aVarName.

(** [isalpha] and [isalnum] in the "C" locale. *)
Definition isalpha (c : ascii) : bool :=
  let n := N_of_ascii c in
  (((65 <=? n) && (n <=? 90)) || ((97 <=? n) && (n <=? 122)))%N.

Definition isalnum (c : ascii) : bool :=
  let n := N_of_ascii c in
  (isalpha c || ((48 <=? n) && (n <=? 57)))%N.

(** The loop of [IsValidVariableName], from the second character on. *)
Fixpoint valid_tail (s : string) : bool :=
  match s with
  | EmptyString => true
  | String c s' =>
      if negb (isalnum c) && negb (Ascii.eqb c "_") then false
      else valid_tail s'
  end.

(** [ObjectRegister::IsValidVariableName]: a letter, then letters, digits and
    underscores. *)
Definition IsValidVariableName (arName : string) : bool :=
  match arName with
  | EmptyString => false
  | String c s' => if negb (isalpha c) then false else valid_tail s'
  end.

(** No character of [s] is the separator of the register strings. *)
Definition dot_free (s : string) : bool := delim_free gRegStringSeps s.

(* ================================================================== *)
(** ** Types, values and exceptions *)

(** The types of the variables a registered address can point to: a type read
    by [boost::lexical_cast] (named, as "double" or "int"), [bool],
    [DateTime], [boost::shared_ptr<C>] for the class named [C], and
    [std::vector] of any of these. *)
Inductive ty :=
| TLexical (n : string)
| TBool
| TDateTime
| TShared (cls : string)
| TVector (t : ty).

(** The types [T] for which a [Register<T>] can be instantiated, that is the
    types with a [ResetFromString] overload: a pointer [U*], an instance
    [boost::shared_ptr<C>] held by value, and the member function pointers
    [double (C::* )(void)] and [double (C::* )(void) const]. *)
Inductive regty :=
| RPointer (t : ty)
| RShared (cls : string)
| RMemFn (cls : string) (is_const : bool).

(** A value of a registered type: an address, an object or a member function,
    [None] for the null pointer. *)
Abbreviation rval := (option N).

(** The [TemsimException]s of the module, by the place that throws them. *)
Inductive exn :=
| EKeyNotFound (aKey : string)
    (* "Couldn't find key [%d] in object register" *)
| ETypeRegisterNotFound (tn : string)
    (* "Couldn't find object register for type [%d]" *)
| ETypenameNotFound (aKey : string)
    (* "Couldn't find a typename for key " + aKey *)
| EResetValue (s : string)
    (* "Couldn't reset value to " + s *)
| EMemberNotDefined (var_name aClassName : string) (e : exn)
    (* "member '" + var_name + "' not defined for " + aClassName + ": " + e.what() *)
| EClassNotRegistered (arClassName : string)
    (* "Class '" + arClassName + "' not registered for use in T4 INI file" *)
| EDateTime (s : string)
    (* thrown by DateTime::FromString *).

(** What the program relies on and [objectregister.hpp] does not define. *)
Class Platform := {
  (** the values [boost::lexical_cast] produces *)
  lexval : Type;
  (** [boost::lexical_cast<T>(s)] for the type named by the first argument;
      [None] when the cast throws *)
  lexical_cast : string -> string -> option lexval;
  DateTime : Type;
  Simulation : Type;
  (** [DateTime::FromString(s, apSim)]; [None] when it throws *)
  DateTime_FromString : string -> option Simulation -> option DateTime;
  (** [EnhancedIniFile::sSeps], the separators of a collection string *)
  sSeps : string;
  (** [typeid(T).name()] *)
  type_name : regty -> string
}.

Inductive outcome (A : Type) :=
| Ok (a : A)
| Throw (e : exn)
| Undefined (* a null pointer is dereferenced *).
Arguments Ok {A} a.
Arguments Throw {A} e.
Arguments Undefined {A}.

(* ================================================================== *)
(** ** The state and its monad *)

Section Model.
Context `{Platform}.

(** The contents of a variable that a registered address points to. *)
Inductive val :=
| VLexical (v : lexval)
| VBool (b : bool)
| VDateTime (d : DateTime)
| VShared (h : rval)
| VVector (l : list val).

(** [Register<T>]: the type register of one type. [elem] is the [T] of the
    instantiation, which selects the virtual [Reset] and, there, the
    [ResetFromString] overload. *)
Record Register := {
  elem : regty;
  Data : gmap string rval;
  StringData : gmap string string
}.

(** A callback is a [boost::function]. The tables of the object register
    hold it by a number; what calling it does is given to [DoVoidCallbacks]
    and [DoTimeCallbacks]. An entry of [calls], in the state, is for a
    callback that writes down that it was called. *)
Inductive call :=
| VoidCall (f : N)
| TimeCall (f : N) (arTime : DateTime).

Record ObjectRegister := {
  Registers : gmap string Register;
  TypeNames : gmap string string;
  mVoidCallbacks : list (string * N);
  mTimeCallbacks : list (string * N);
  mpSimulation : option Simulation
}.

(** The object register together with the memory its entries point into. *)
Record World := {
  objects : ObjectRegister;
  heap : gmap N val;
  next_object : N;
  calls : list call
}.

Definition M (A : Type) : Type := World -> outcome A * World.

Definition ret {A : Type} (a : A) : M A := fun w => (Ok a, w).
Definition throw {A : Type} (e : exn) : M A := fun w => (Throw e, w).
Definition undefined {A : Type} : M A := fun w => (Undefined, w).

Definition bind {A B : Type} (m : M A) (k : A -> M B) : M B :=
  fun w =>
    match m w with
    | (Ok a, w') => k a w'
    | (Throw e, w') => (Throw e, w')
    | (Undefined, w') => (Undefined, w')
    end.

(** [try { m } catch (TemsimException& e) { h e }]. *)
Definition try_catch {A : Type} (m : M A) (h : exn -> M A) : M A :=
  fun w =>
    match m w with
    | (Throw e, w') => h e w'
    | r => r
    end.

(** A [for] loop over the elements of a container, in order. *)
Fixpoint for_each {A : Type} (l : list A) (body : A -> M unit) : M unit :=
  match l with
  | [] => ret tt
  | x :: l' => bind (body x) (fun _ => for_each l' body)
  end.

Definition get_objects : M ObjectRegister := fun w => (Ok (objects w), w).

Definition set_objects (o : ObjectRegister) : M unit :=
  fun w => (Ok tt, {| objects := o; heap := heap w;
                      next_object := next_object w; calls := calls w |}).

Definition set_Registers (o : ObjectRegister) (rs : gmap string Register)
  : ObjectRegister :=
  {| Registers := rs; TypeNames := TypeNames o;
     mVoidCallbacks := mVoidCallbacks o; mTimeCallbacks := mTimeCallbacks o;
     mpSimulation := mpSimulation o |}.

Definition set_TypeNames (o : ObjectRegister) (tns : gmap string string)
  : ObjectRegister :=
  {| Registers := Registers o; TypeNames := tns;
     mVoidCallbacks := mVoidCallbacks o; mTimeCallbacks := mTimeCallbacks o;
     mpSimulation := mpSimulation o |}.

(* ================================================================== *)
(** ** [Register<T>] *)

(** [new Register<T>]. *)
Definition new_Register (T : regty) : Register :=
  {| elem := T; Data := ∅; StringData := ∅ |}.

Definition Register_Get (r : Register) (aKey : string) : outcome rval :=
  match Data r !! aKey with
  | None => Throw (EKeyNotFound aKey)
  | Some v => Ok v
  end.

Definition Register_GetString (r : Register) (aKey : string) : outcome string :=
  match StringData r !! aKey with
  | None => Throw (EKeyNotFound aKey)
  | Some s => Ok s
  end.

Definition Register_SetString (r : Register) (aKey aString : string) : Register :=
  {| elem := elem r; Data := Data r;
     StringData := <[aKey := aString]> (StringData r) |}.

(** [apDefaultValue] is [None] for the [NULL] default. *)
Definition Register_Set (r : Register) (aKey : string) (aVal : rval)
    (apDefaultValue : option string) : Register :=
  let r' := {| elem := elem r; Data := <[aKey := aVal]> (Data r);
               StringData := StringData r |} in
  match apDefaultValue with
  | Some d => Register_SetString r' aKey d
  | None => r'
  end.

(* ================================================================== *)
(** ** [ObjectRegister] *)

(** [ObjectRegister()]. *)
Definition new_ObjectRegister : ObjectRegister :=
  {| Registers := ∅; TypeNames := ∅; mVoidCallbacks := []; mTimeCallbacks := [];
     mpSimulation := None |}.


(** [return TypeNames[aKey];] where [operator[]] of [std::map] inserts a
    value-initialised entry for a key it does not find. *)
Definition GetType (aKey : string) : M string :=
  bind get_objects (fun o =>
  match TypeNames o !! aKey with
  | Some tn => ret tn
  | None =>
      bind (set_objects (set_TypeNames o (<[aKey := EmptyString]> (TypeNames o))))
           (fun _ => ret EmptyString)
  end).

Definition HasKey (aKey : string) : M bool :=
  bind get_objects (fun o =>
  match TypeNames o !! aKey with
  | None => ret false
  | Some _ => ret true
  end).

(** [Get<T>(aKey, aVal)], with the value returned; [T Get<T>(aKey)] returns
    the same. *)
Definition Get (T : regty) (aKey : string) : M rval :=
  bind get_objects (fun o =>
  match Registers o !! type_name T with
  | Some r => fun w => (Register_Get r aKey, w)
  | None => throw (ETypeRegisterNotFound (type_name T))
  end).

(** [pRegT = Registers[type_name]] inserts a null [BaseRegister::Ptr] for a
    type name without a register, and [pRegT->] dereferences it. *)
Definition GetString (aKey : string) : M string :=
  bind get_objects (fun o =>
  match TypeNames o !! aKey with
  | None => throw (ETypenameNotFound aKey)
  | Some tn =>
      match Registers o !! tn with
      | None => undefined
      | Some r => fun w => (Register_GetString r aKey, w)
      end
  end).

Definition FindInstance (cls aName : string) : M rval :=
  Get (RShared cls) (RegisterString cls aName EmptyString).

Definition Set_ (T : regty) (arKey : string) (arVal : rval)
    (apDefaultValue : option string) : M unit :=
  bind get_objects (fun o =>
  let pRegT :=
    match Registers o !! type_name T with
    | None => new_Register T
    | Some r => r
    end in
  let rs := <[type_name T := Register_Set pRegT arKey arVal apDefaultValue]>
              (Registers o) in
  set_objects (set_TypeNames (set_Registers o rs)
                 (<[arKey := type_name T]> (TypeNames o)))).

Definition SetString (aKey aString : string) : M unit :=
  bind get_objects (fun o =>
  match TypeNames o !! aKey with
  | None => throw (ETypenameNotFound aKey)
  | Some tn =>
      match Registers o !! tn with
      | None => undefined
      | Some r =>
          set_objects (set_Registers o
            (<[tn := Register_SetString r aKey aString]> (Registers o)))
      end
  end).

(** *** Callbacks *)

(** [std::multimap::insert(value)]: the entries stay ordered by key, and the
    new entry goes to the upper bound of the entries with an equivalent key. *)
Fixpoint multimap_insert {V : Type} (k : string) (v : V)
    (m : list (string * V)) : list (string * V) :=
  match m with
  | [] => [(k, v)]
  | e :: m' =>
      if String.ltb k e.1 then (k, v) :: m else e :: multimap_insert k v m'
  end.

(** [std::multimap::equal_range(k)]: from the first entry whose key is not
    less than [k] up to the first entry whose key is greater than [k]. *)
Fixpoint lower_bound {V : Type} (k : string) (m : list (string * V))
  : list (string * V) :=
  match m with
  | [] => []
  | e :: m' => if String.ltb e.1 k then lower_bound k m' else m
  end.

Fixpoint until_upper_bound {V : Type} (k : string) (m : list (string * V))
  : list (string * V) :=
  match m with
  | [] => []
  | e :: m' => if String.ltb k e.1 then [] else e :: until_upper_bound k m'
  end.

Definition equal_range {V : Type} (k : string) (m : list (string * V))
  : list (string * V) :=
  until_upper_bound k (lower_bound k m).

Definition AddVoidCallback (aName : string) (aFunctor : N) : M unit :=
  bind get_objects (fun o =>
  set_objects
    {| Registers := Registers o; TypeNames := TypeNames o;
       mVoidCallbacks := multimap_insert aName aFunctor (mVoidCallbacks o);
       mTimeCallbacks := mTimeCallbacks o; mpSimulation := mpSimulation o |}).

Definition AddTimeCallback (aName : string) (aFunctor : N) : M unit :=
  bind get_objects (fun o =>
  set_objects
    {| Registers := Registers o; TypeNames := TypeNames o;
       mVoidCallbacks := mVoidCallbacks o;
       mTimeCallbacks := multimap_insert aName aFunctor (mTimeCallbacks o);
       mpSimulation := mpSimulation o |}).

(** [std::multimap::upper_bound(k)]: from the first entry whose key is
    greater than [k] on. *)
Fixpoint upper_bound {V : Type} (k : string) (m : list (string * V))
  : list (string * V) :=
  match m with
  | [] => []
  | e :: m' => if String.ltb k e.1 then m else upper_bound k m'
  end.

(** An iterator of a multimap: [end()], or the node of rank [i] among the
    entries of key [k]. No entry of the tables is ever erased and an entry is
    inserted behind the entries of its key, so this names one and the same
    node whatever is inserted while the iterator is held. *)
Inductive iterator :=
| it_end
| it_node (k : string) (i : nat).

#[global] Instance iterator_eq_dec : EqDecision iterator.
Proof. solve_decision. Defined.

(** The iterator to the first entry of a tail of a multimap. *)
Definition it_first {V : Type} (m : list (string * V)) : iterator :=
  match m with
  | [] => it_end
  | e :: _ => it_node e.1 0
  end.

(** [*it] and [++it] in the multimap as it is now. *)
Definition it_deref {V : Type} (m : list (string * V)) (k : string) (i : nat)
  : option (string * V) :=
  equal_range k m !! i.

Definition it_next {V : Type} (m : list (string * V)) (k : string) (i : nat)
  : iterator :=
  match it_deref m k (S i) with
  | Some _ => it_node k (S i)
  | None => it_first (upper_bound k m)
  end.

Section Invoke.
Variable table : ObjectRegister -> list (string * N).
Variable invoke : N -> M unit.

(** [for ( ; range.first != range.second; range.first++ )], calling the
    callback of the entry at [range.first] in each turn.
    The callback runs on the state and may throw, which ends the loop, or
    add callbacks; the table is read as the callback leaves it. The result
    is [None] when [fuel] turns do not end the loop. *)
Fixpoint call_range (fuel : nat) (first second : iterator) (w : World)
  : option (outcome unit * World) :=
  match fuel with
  | O => None
  | S fuel' =>
      if decide (first = second) then Some (Ok tt, w)
      else
        match first with
        | it_end => Some (Undefined, w)
        | it_node k i =>
            match it_deref (table (objects w)) k i with
            | None => Some (Undefined, w)
            | Some e =>
                match invoke e.2 w with
                | (Ok _, w') =>
                    call_range fuel' (it_next (table (objects w')) k i) second w'
                | (Throw x, w') => Some (Throw x, w')
                | (Undefined, w') => Some (Undefined, w')
                end
            end
        end
  end.

(** [range = table.equal_range(aName)] and the loop. *)
Definition do_callbacks (fuel : nat) (aName : string) (w : World)
  : option (outcome unit * World) :=
  let m := table (objects w) in
  call_range fuel (it_first (lower_bound aName m))
    (it_first (upper_bound aName m)) w.

End Invoke.

Definition DoVoidCallbacks (call_void : N -> M unit) (fuel : nat)
    (aName : string) : World -> option (outcome unit * World) :=
  do_callbacks mVoidCallbacks call_void fuel aName.

Definition DoTimeCallbacks (call_time : N -> DateTime -> M unit) (fuel : nat)
    (aName : string) (arTime : DateTime)
  : World -> option (outcome unit * World) :=
  do_callbacks mTimeCallbacks (fun f => call_time f arTime) fuel aName.

Definition GetSimulation : M (option Simulation) :=
  bind get_objects (fun o => ret (mpSimulation o)).

Definition SetSimulation (apSim : option Simulation) : M unit :=
  bind get_objects (fun o =>
  set_objects
    {| Registers := Registers o; TypeNames := TypeNames o;
       mVoidCallbacks := mVoidCallbacks o; mTimeCallbacks := mTimeCallbacks o;
       mpSimulation := apSim |}).

(** *** Instances *)

(** A class that can be made and registered: its [class_name], its
    constructor [T(aName)] running on the object just allocated, and its
    method [Register], which registers the members of the object. The
    simulation handed to [Register] owns the object register of the state. *)
Record ObjectClass := {
  class_name : string;
  T_constructor : string -> N -> M unit;
  T_Register : string -> N -> M unit
}.

(** [new T(aName)], the object held by the [boost::shared_ptr] returned. *)
Definition new_object (T : ObjectClass) (aName : string) : M N :=
  fun w =>
    let thing := next_object w in
    bind (T_constructor T aName thing) (fun _ => ret thing)
      {| objects := objects w; heap := heap w;
         next_object := (next_object w + 1)%N; calls := calls w |}.

(** [SetInstance(aPtr)] for an object whose [Name()] is [aName];
    [*GetSimulation()] dereferences [mpSimulation]. *)
Definition SetInstance (T : ObjectClass) (aName : string) (aPtr : N) : M unit :=
  let key := RegisterString (class_name T) aName EmptyString in
  bind (Set_ (RShared (class_name T)) key (Some aPtr) None) (fun _ =>
  bind GetSimulation (fun sim =>
  match sim with
  | None => undefined
  | Some _ => T_Register T aName aPtr
  end)).

(** [Set(arObj, arKey, arVal, apDefaultValue)] and [RegisterMember], for a
    member of an object of class [S] whose [Name()] is [aName]. *)
Definition Set_member (S : ObjectClass) (aName arKey : string) (T : regty)
    (arVal : rval) (apDefaultValue : option string) : M unit :=
  Set_ T (RegisterString (class_name S) aName arKey) arVal apDefaultValue.

(* ================================================================== *)
(** ** [ResetFromString] *)

Definition with_heap (w : World) (h : gmap N val) : World :=
  {| objects := objects w; heap := h;
     next_object := next_object w; calls := calls w |}.

Definition set_heap (h : gmap N val) : M unit :=
  fun w => (Ok tt, with_heap w h).

(** [*p = v]. *)
Definition store (p : rval) (v : val) : M unit :=
  match p with
  | None => undefined
  | Some a => fun w => set_heap (<[a := v]> (heap w)) w
  end.

(** [v->push_back(temp)], on a variable that holds a vector. *)
Definition push_back (p : rval) (temp : val) : M unit :=
  match p with
  | None => undefined
  | Some a => fun w =>
      match heap w !! a with
      | Some (VVector l) => set_heap (<[a := VVector (l ++ [temp])]> (heap w)) w
      | _ => (Undefined, w)
      end
  end.

(** The [bool] specialisation. The exception carries [s] as transformed. *)
Definition bool_FromString (s : string) : outcome bool :=
  let s := transform tolower s in
  if String.eqb s "true" || String.eqb s "yes" || String.eqb s "y" then Ok true
  else if String.eqb s "false" || String.eqb s "no" || String.eqb s "n"
  then Ok false
  else Throw (EResetValue s).

(** The loop of the [vector<T>*] overload on a local vector [v]:
    [T temp; ResetFromString(arReg, &temp, *beg); v.push_back(temp);]. *)
Fixpoint push_all (conv : string -> M val) (toks : list string) (v : list val)
  : M (list val) :=
  match toks with
  | [] => ret v
  | tok :: toks' =>
      bind (conv tok) (fun temp => push_all conv toks' (v ++ [temp]))
  end.

(** The value which [ResetFromString(arReg, &temp, s)] leaves in a local
    [T temp], by the overload that the type [T] selects: [T*] with
    [boost::lexical_cast], its [bool] and [DateTime] specialisations,
    [boost::shared_ptr<T>*] and [vector<T>*]. *)
Fixpoint FromString (t : ty) (s : string) : M val :=
  match t with
  | TLexical n =>
      match lexical_cast n s with
      | Some v => ret (VLexical v)
      | None => throw (EResetValue s)
      end
  | TBool =>
      match bool_FromString s with
      | Ok b => ret (VBool b)
      | Throw e => throw e
      | Undefined => undefined
      end
  | TDateTime =>
      bind GetSimulation (fun sim =>
      match DateTime_FromString s sim with
      | Some d => ret (VDateTime d)
      | None => throw (EDateTime s)
      end)
  | TShared cls => bind (FindInstance cls s) (fun temp => ret (VShared temp))
  | TVector t' => bind (push_all (FromString t') (tokenizer sSeps s) [])
                       (fun v => ret (VVector v))
  end.

(** [ResetFromString(arReg, p, s)] for a pointer [p] to a variable of type
    [t]. The [vector<T>*] overload clears the variable first and appends to
    it element by element; the other overloads convert and then assign. *)
Definition ResetFromString_pointer (t : ty) (p : rval) (s : string) : M unit :=
  match t with
  | TVector t' =>
      bind (store p (VVector [])) (fun _ =>
      for_each (tokenizer sSeps s) (fun tok =>
        bind (FromString t' tok) (fun temp => push_back p temp)))
  | _ => bind (FromString t s) (fun v => store p v)
  end.

(** [ResetFromString(arReg, p, s)] as [Register<T>::Reset] calls it, on its
    copy [p] of the registered value: nothing is done for a member function
    pointer, an instance held by value is looked up into the copy, and a
    pointer is written through. *)
Definition ResetFromString (T : regty) (p : rval) (s : string) : M unit :=
  match T with
  | RMemFn _ _ => ret tt
  | RShared cls => bind (FindInstance cls s) (fun _ => ret tt)
  | RPointer t => ResetFromString_pointer t p s
  end.

(* ================================================================== *)
(** ** [Reset] *)

(** [Data[aKey]] in the type register named [tn]: [operator[]] inserts a null
    value for a key it does not find. *)
Definition Data_subscript (tn aKey : string) : M rval :=
  bind get_objects (fun o =>
  match Registers o !! tn with
  | None => undefined
  | Some r =>
      match Data r !! aKey with
      | Some v => ret v
      | None =>
          let r' := {| elem := elem r; Data := <[aKey := None]> (Data r);
                       StringData := StringData r |} in
          bind (set_objects (set_Registers o (<[tn := r']> (Registers o))))
               (fun _ => ret None)
      end
  end).

(** [Register<T>::Reset(aReg)] of the type register named [tn]. *)
Definition Register_Reset (tn : string) : M unit :=
  bind get_objects (fun o =>
  match Registers o !! tn with
  | None => undefined
  | Some r =>
      for_each (std_map_items (StringData r)) (fun string_data =>
        bind (Data_subscript tn string_data.1) (fun p =>
        ResetFromString (elem r) p string_data.2))
  end).

(** [ObjectRegister::Reset()]. *)
Definition Reset_ : M unit :=
  bind get_objects (fun o =>
  for_each (std_map_items (Registers o)) (fun regs => Register_Reset regs.1)).

(* ================================================================== *)
(** ** [MakeObject] and [ObjectFactory] *)

Definition MakeObject (T : ObjectClass) (aClassName aName : string)
    (aInifile : gmap string string) : M unit :=
  bind (new_object T aName) (fun thing =>
  bind (SetInstance T aName thing) (fun _ =>
  for_each (std_map_items aInifile) (fun nv =>
    let var_name := nv.1 in
    let var_value := nv.2 in
    try_catch
      (SetString (RegisterString aClassName aName var_name) var_value)
      (fun e => throw (EMemberNotDefined var_name aClassName e))))).

Definition Maker : Type := string -> string -> gmap string string -> M unit.

(** [mpRegister] points to the object register of the state. *)
Record ObjectFactory := {
  mMakers : gmap string Maker;
  mClassRelationships : gmap string string
}.

Definition new_ObjectFactory : ObjectFactory :=
  {| mMakers := ∅; mClassRelationships := ∅ |}.

Definition Make (f : ObjectFactory) (arClassName arName : string)
    (arInifile : gmap string string) : M unit :=
  match mMakers f !! arClassName with
  | Some maker => maker arClassName arName arInifile
  | None => throw (EClassNotRegistered arClassName)
  end.

Definition AddMaker (f : ObjectFactory) (arClassName : string) (aMaker : Maker)
    (arBaseClass : string) : ObjectFactory :=
  {| mMakers := <[arClassName := aMaker]> (mMakers f);
     mClassRelationships :=
       if String.eqb arBaseClass EmptyString then mClassRelationships f
       else <[arClassName := arBaseClass]> (mClassRelationships f) |}.

(** [AddMaker<T>()] and [AddMaker<subType, baseType>()]. *)
Definition AddMaker_T (f : ObjectFactory) (T : ObjectClass) : ObjectFactory :=
  AddMaker f (class_name T) (MakeObject T) EmptyString.

Definition AddMaker_sub (f : ObjectFactory) (subType baseType : ObjectClass)
  : ObjectFactory :=
  AddMaker f (class_name subType) (MakeObject subType) (class_name baseType).

(* ================================================================== *)
(** ** Invariants and the parts of the loops *)

(** The entries of a multimap are in ascending key order. *)
Definition multimap_ok {V : Type} (m : list (string * V)) : Prop :=
  StronglySorted (fun x y : string * V => String.ltb y.1 x.1 = false) m.

(** [m] returns what the object register determines and changes nothing. *)
Definition reads_objects {A : Type} (m : M A) : Prop :=
  forall w w', objects w' = objects w -> m w' = ((m w).1, w').

(** Every type name in the type index has its type register. *)
Definition index_ok (o : ObjectRegister) : Prop :=
  map_Forall (fun _ tn => is_Some (Registers o !! tn)) (TypeNames o).

#[global] Instance index_ok_dec (o : ObjectRegister) : Decision (index_ok o).
Proof. unfold index_ok. apply _. Defined.

(** The first two statements of [MakeObject]: the object is made and
    registered, and registers its members. *)
Definition make_instance (T : ObjectClass) (aName : string) : M unit :=
  bind (new_object T aName) (fun thing => SetInstance T aName thing).

(** The body of the loop of [MakeObject], and the call it guards. *)
Definition set_field (aClassName aName : string) (nv : string * string) : M unit :=
  SetString (RegisterString aClassName aName nv.1) nv.2.

Definition try_set_field (aClassName aName : string) (nv : string * string)
  : M unit :=
  try_catch (set_field aClassName aName nv)
    (fun e => throw (EMemberNotDefined nv.1 aClassName e)).

Definition is_pointer (T : regty) : bool :=
  match T with RPointer _ => true | _ => false end.

(** Every key with a remembered string has its value in the same register. *)
Definition data_ok (o : ObjectRegister) : Prop :=
  map_Forall (fun _ r =>
    map_Forall (fun k _ => is_Some (Data r !! k)) (StringData r)) (Registers o).

#[global] Instance data_ok_dec (o : ObjectRegister) : Decision (data_ok o).
Proof. unfold data_ok. apply _. Defined.

(** The address [a] is registered, among the pointers with a remembered
    string, for the key [k] of the register named [tn] at most. *)
Definition sole_target (o : ObjectRegister) (a : N) (tn k : string) : Prop :=
  map_Forall (fun tn' r' =>
    is_pointer (elem r') = true ->
    map_Forall (fun k' _ =>
      Data r' !! k' = Some (Some a) -> tn' = tn /\ k' = k) (StringData r'))
    (Registers o).

#[global] Instance sole_target_dec (o : ObjectRegister) (a : N) (tn k : string) :
  Decision (sole_target o a tn k).
Proof. unfold sole_target. apply _. Defined.

(** The body of the loop of [Register<T>::Reset]. *)
Definition reset_entry (tn : string) (T : regty) (string_data : string * string)
  : M unit :=
  bind (Data_subscript tn string_data.1) (fun p =>
  ResetFromString T p string_data.2).

(** The variable at [a] holds what the string [s] converts to, as a value
    of type [t], in the object register of [wref]. *)
Definition derived (wref : World) (t : ty) (s : string) (a : N) (w : World)
  : Prop :=
  exists v, FromString t s wref = (Ok v, wref) /\ heap w !! a = Some v.

Definition same_objects (o1 : ObjectRegister) (w : World) : Prop :=
  objects w = o1.

(** [w'] is [w] but for the variable which [p] points to, if any. *)
Definition writes_at_most (p : rval) (w w' : World) : Prop :=
  objects w' = objects w /\ calls w' = calls w /\
  next_object w' = next_object w /\
  forall a, p <> Some a -> heap w' !! a = heap w !! a.

(** The keys of the fields of [ini] before the field [fld], those that are
    in the type index, have type names with a register. *)
Definition fields_ok (o : ObjectRegister) (cls name fld : string)
    (ini : gmap string string) : Prop :=
  map_Forall (fun g _ =>
    String.ltb g fld = true ->
    from_option (fun tn => is_Some (Registers o !! tn)) True
      (TypeNames o !! RegisterString cls name g)) ini.

#[global] Instance fields_ok_dec (o : ObjectRegister) (cls name fld : string)
    (ini : gmap string string) : Decision (fields_ok o cls name fld ini).
Proof.
  unfold fields_ok. apply map_Forall_dec. intros g _. apply impl_dec; [apply _|].
  destruct (TypeNames o !! RegisterString cls name g); simpl; apply _.
Defined.

(** The callback [f] adds nothing to the table [table] and takes nothing
    from it. *)
Definition quiet (table : ObjectRegister -> list (string * N))
    (call : M unit) : Prop :=
  forall w, table (objects (call w).2) = table (objects w).

(** No type register remembers a string. *)
Definition no_strings (o : ObjectRegister) : Prop :=
  map_Forall (fun _ r => StringData r = ∅) (Registers o).

#[global] Instance no_strings_dec (o : ObjectRegister) : Decision (no_strings o).
Proof. unfold no_strings. apply _. Defined.

End Model.

(* ================================================================== *)
(** ** A platform and classes to run the model on *)

Module Sample.

(** Decimal digits read as a number; anything else fails, as
    [boost::lexical_cast<unsigned>] does. *)
Fixpoint digits (acc : N) (s : string) : option N :=
  match s with
  | EmptyString => Some acc
  | String c s' =>
      let n := N_of_ascii c in
      if ((48 <=? n) && (n <=? 57))%N then digits (acc * 10 + (n - 48)) s'
      else None
  end.

Definition cast (n s : string) : option N :=
  if String.eqb n "unsigned"
  then (if String.eqb s EmptyString then None else digits 0 s)
  else None.

Fixpoint ty_name (t : ty) : string :=
  match t with
  | TLexical n => n
  | TBool => "bool"
  | TDateTime => "DateTime"
  | TShared cls => "shared_ptr<" ++ cls ++ ">"
  | TVector t' => "vector<" ++ ty_name t' ++ ">"
  end.

Definition regty_name (T : regty) : string :=
  match T with
  | RPointer t => ty_name t ++ " *"
  | RShared cls => "shared_ptr<" ++ cls ++ ">"
  | RMemFn cls false => "double (" ++ cls ++ "::)(void)"
  | RMemFn cls true => "double (" ++ cls ++ "::)(void) const"
  end.

#[local] Instance platform : Platform :=
  {| lexval := N;
     lexical_cast := cast;
     DateTime := N;
     Simulation := unit;
     DateTime_FromString := fun s _ => digits 0 s;
     sSeps := "[], ";
     type_name := regty_name |}.

Definition new_World : @World platform :=
  {| objects :=
       {| Registers := ∅; TypeNames := ∅; mVoidCallbacks := [];
          mTimeCallbacks := []; mpSimulation := Some tt |};
     heap := ∅; next_object := 1; calls := [] |}.

(** The state a computation reaches from [w]. *)
Definition exec {A : Type} (m : @M platform A) (w : @World platform)
  : @World platform := (m w).2.

(** The class [Storage] of the documentation, with the members [EOL] (a
    number), [SpillOutlet] (an instance) and [Sources] (a vector of
    instances). The members of object [n] live at [8 * n], [8 * n + 1] and
    [8 * n + 2]. *)
Definition Storage : @ObjectClass platform :=
  {| class_name := "Storage";
     T_constructor := fun _ thing =>
       bind (store (Some (8 * thing)%N) (VLexical (0%N : @lexval platform)))
         (fun _ =>
       bind (store (Some (8 * thing + 1)%N) (VShared None)) (fun _ =>
       store (Some (8 * thing + 2)%N) (VVector [])));
     T_Register := fun aName thing =>
       bind (Set_ (RPointer (TLexical "unsigned"))
               (RegisterString "Storage" aName "EOL")
               (Some (8 * thing)%N) None) (fun _ =>
       bind (Set_ (RPointer (TShared "Storage"))
               (RegisterString "Storage" aName "SpillOutlet")
               (Some (8 * thing + 1)%N) None) (fun _ =>
       Set_ (RPointer (TVector (TShared "Storage")))
            (RegisterString "Storage" aName "Sources")
            (Some (8 * thing + 2)%N) None)) |}.

(** Callbacks. The callback 0 looks up a key that is not registered, and
    so throws; the callback 9 writes down that it was called and adds the
    callback 5 to the group [start]; every other callback writes down that
    it was called. Time callbacks write down their call and the time. *)
Definition log (c : @call platform) : @M platform unit :=
  fun w => (Ok tt, {| objects := objects w; heap := heap w;
                      next_object := next_object w; calls := calls w ++ [c] |}).

Definition call_void (f : N) : @M platform unit :=
  if (f =? 0)%N then
    bind (Get (RPointer TBool) "Storage.Lake.Height") (fun _ => ret tt)
  else if (f =? 9)%N then
    bind (log (VoidCall f)) (fun _ => AddVoidCallback "start" 5%N)
  else log (VoidCall f).

Definition call_time (f : N) (arTime : @DateTime platform)
  : @M platform unit :=
  log (TimeCall f arTime).

Definition factory : @ObjectFactory platform :=
  AddMaker_T new_ObjectFactory Storage.

Definition unsigned_ptr : regty := RPointer (TLexical "unsigned").

Definition number (n : N) : @val platform := VLexical (n : @lexval platform).

(** The state after [Set("Storage::Volume", &Storage::Volume)], the way the
    functions for bookkeeping are registered, and
    [SetString("Storage::Volume", "hourly")]. *)
Definition Volume : @World platform :=
  exec (bind (Set_ (RMemFn "Storage" false) "Storage::Volume" (Some 1%N) None)
          (fun _ => SetString "Storage::Volume" "hourly")) new_World.

(** The state after [Make("Storage", "Lake", {})] and
    [Make("Storage", "Spillway", {})]: two instances, the objects 1 and 2. *)
Definition Two : @World platform :=
  exec (bind (Make factory "Storage" "Lake" ∅)
          (fun _ => Make factory "Storage" "Spillway" ∅)) new_World.

(** The state after [Make("Storage", "Lake", {EOL = 123})]. *)
Definition Lake : @World platform :=
  exec (Make factory "Storage" "Lake" (<["EOL" := "123"]> ∅)) new_World.

(** [Lake] after [SetString("Storage.Lake.EOL", "77")] and [Reset()]. *)
Definition Lake_reset : @World platform :=
  exec (bind (SetString "Storage.Lake.EOL" "77") (fun _ => Reset_)) Lake.

(** [Two] after [SetString("Storage.Lake", "Spillway")] and [Reset()]. *)
Definition Two_reset : @World platform :=
  exec (bind (SetString "Storage.Lake" "Spillway") (fun _ => Reset_)) Two.

(** The state in which the object [Lake] is made and registered, and this
    state after [SetString("Storage.Lake.EOL", "5")]. *)
Definition Lake_made : @World platform :=
  exec (make_instance Storage "Lake") new_World.

Definition EOL_set : @World platform :=
  exec (for_each [("EOL", "5")] (set_field "Storage" "Lake")) Lake_made.

(** The state in which [Make] fails on the field [Alpha]. *)
Definition Alpha_failed : @World platform :=
  exec (Make factory "Storage" "Lake"
          (list_to_map [("EOL", "5"); ("Alpha", "1")])) new_World.

End Sample.

(* ================================================================== *)
(** * Properties *)

(** Closed equations are settled by evaluation. *)
Ltac vm_refl :=
  match goal with
  | |- ?G => match G with _ = ?y => exact (@eq_refl _ y <: G) end
  end.

Ltac unfold_monad :=
  unfold bind, ret, throw, undefined, try_catch, get_objects, set_objects,
    set_heap, set_Registers, set_TypeNames in *.

(** A computation returns its outcome and the state it reaches. *)
Lemma run_outcome `{Platform} {A : Type} (m : M A) (w : World) (r : outcome A) :
  (m w).1 = r -> m w = (r, (m w).2).
Proof. intros <-. destruct (m w). reflexivity. Qed.

(** A computation that only reads returns its outcome in the same state. *)
Lemma run_reader `{Platform} {A : Type} (m : M A) (w : World) (r : outcome A) :
  reads_objects m -> (m w).1 = r -> m w = (r, w).
Proof. intros Hm <-. apply Hm. reflexivity. Qed.


(** ** The type index: [GetType], [HasKey], [Get], [Set] *)

(** C10. For a key [k] without a type-index entry, [GetType(k)] returns the
    empty string and leaves an entry for [k], with the empty string as its
    type name, in the type index: [HasKey(k)], false before the call, is true
    after it, although the type registers, where the values are stored, are
    what they were. *)
Theorem GetType_inserts_empty_entry `{Platform} (k : string) (w : World) :
  TypeNames (objects w) !! k = None ->
  exists w',
    GetType k w = (Ok EmptyString, w') /\
    TypeNames (objects w') = <[k := EmptyString]> (TypeNames (objects w)) /\
    Registers (objects w') = Registers (objects w) /\
    heap w' = heap w /\
    HasKey k w = (Ok false, w) /\
    HasKey k w' = (Ok true, w').
Proof.
  intros Hk. unfold GetType, HasKey. unfold_monad. rewrite Hk.
  eexists. split; [reflexivity|]. simpl.
  rewrite lookup_insert_eq. repeat split; reflexivity.
Qed.

Lemma GetType_inserts_empty_entry_witness :
  exists w',
    GetType "Storage.Lake.EOL" Sample.new_World = (Ok EmptyString, w') /\
    HasKey "Storage.Lake.EOL" w' = (Ok true, w').
Proof.
  destruct (GetType_inserts_empty_entry "Storage.Lake.EOL" Sample.new_World)
    as (w' & Hg & _ & _ & _ & _ & Hh).
  - reflexivity.
  - exists w'. split; assumption.
Defined.

(** C5. The typed [Get<T>(k)] throws "Couldn't find object register for
    type" when there is no type register for [T], throws "Couldn't find key"
    when the type register of [T] exists and has no value for [k], and
    otherwise returns the value stored for [k] there. The state is not
    changed. *)
Theorem Get_cases `{Platform} (T : regty) (k : string) (w : World) :
  (Registers (objects w) !! type_name T = None ->
   Get T k w = (Throw (ETypeRegisterNotFound (type_name T)), w)) /\
  (forall r, Registers (objects w) !! type_name T = Some r ->
     Data r !! k = None ->
     Get T k w = (Throw (EKeyNotFound k), w)) /\
  (forall r v, Registers (objects w) !! type_name T = Some r ->
     Data r !! k = Some v ->
     Get T k w = (Ok v, w)).
Proof.
  unfold Get, Register_Get. unfold_monad.
  repeat split.
  - intros ->. reflexivity.
  - intros r -> ->. reflexivity.
  - intros r v -> ->. reflexivity.
Qed.

(** C4. [Set<T>(key, value)] never throws. After it the type index maps
    [key] to the type name of [T], whatever it mapped [key] to before, and
    maps every other key as before; the type register of [T] exists and holds
    [value] for [key], and it is a new register with this one entry when
    there was none for [T]; the type registers of the other types, with
    whatever they hold for [key], are untouched. *)
Theorem Set_overwrites_type_routing `{Platform} (T : regty) (k : string)
    (v : rval) (d : option string) (w : World) :
  exists w',
    Set_ T k v d w = (Ok tt, w') /\
    TypeNames (objects w') !! k = Some (type_name T) /\
    (forall k', k' <> k ->
       TypeNames (objects w') !! k' = TypeNames (objects w) !! k') /\
    (exists r', Registers (objects w') !! type_name T = Some r' /\
       elem r' = match Registers (objects w) !! type_name T with
                 | Some r => elem r | None => T end /\
       Data r' !! k = Some v /\
       (Registers (objects w) !! type_name T = None ->
        r' = Register_Set (new_Register T) k v d)) /\
    (forall tn, tn <> type_name T ->
       Registers (objects w') !! tn = Registers (objects w) !! tn) /\
    heap w' = heap w.
Proof.
  unfold Set_. unfold_monad. eexists. split; [reflexivity|]. simpl.
  split; [apply lookup_insert_eq|].
  split; [intros k' Hk'; apply lookup_insert_ne; congruence|].
  split.
  - eexists. split; [apply lookup_insert_eq|].
    split; [|split].
    + destruct (Registers (objects w) !! type_name T), d; reflexivity.
    + destruct d; simpl; apply lookup_insert_eq.
    + intros ->. reflexivity.
  - split; [|reflexivity].
    intros tn Htn. apply lookup_insert_ne. congruence.
Qed.

Lemma Get_cases_witness :
  Get (RPointer TBool) "Storage.Lake.EOL" Sample.Lake
    = (Throw (ETypeRegisterNotFound "bool *"), Sample.Lake) /\
  Get Sample.unsigned_ptr "Storage.Lake.Height" Sample.Lake
    = (Throw (EKeyNotFound "Storage.Lake.Height"), Sample.Lake) /\
  Get Sample.unsigned_ptr "Storage.Lake.EOL" Sample.Lake
    = (Ok (Some 8%N), Sample.Lake).
Proof.
  split; [|split].
  - destruct (Get_cases (RPointer TBool) "Storage.Lake.EOL" Sample.Lake)
      as (H1 & _ & _).
    apply H1. vm_refl.
  - destruct (Get_cases Sample.unsigned_ptr "Storage.Lake.Height" Sample.Lake)
      as (_ & H2 & _).
    eapply H2; vm_compute; reflexivity.
  - destruct (Get_cases Sample.unsigned_ptr "Storage.Lake.EOL" Sample.Lake)
      as (_ & _ & H3).
    eapply H3; vm_compute; reflexivity.
Defined.

(** ** The conversions *)

Ltac case_eqb :=
  match goal with
  | |- context [String.eqb ?a ?b] => destruct (String.eqb_spec a b)
  end.

Lemma transform_tolower_idem (s : string) :
  transform tolower (transform tolower s) = transform tolower s.
Proof.
  induction s as [|c s IH]; simpl; [reflexivity|].
  rewrite IH. f_equal.
  unfold tolower.
  destruct ((65 <=? N_of_ascii c) && (N_of_ascii c <=? 90))%N eqn:E.
  - rewrite N_ascii_embedding.
    + apply andb_prop in E as [E1 E2].
      apply N.leb_le in E1. apply N.leb_le in E2.
      destruct (65 <=? N_of_ascii c + 32)%N eqn:E3; simpl; [|reflexivity].
      destruct (N_of_ascii c + 32 <=? 90)%N eqn:E4; [|reflexivity].
      apply N.leb_le in E4. lia.
    + apply andb_prop in E as [_ E2]. apply N.leb_le in E2. lia.
  - rewrite E. reflexivity.
Qed.

Lemma eqb_N_of_ascii (a b : ascii) :
  Ascii.eqb a b = (N_of_ascii a =? N_of_ascii b)%N.
Proof.
  destruct (Ascii.eqb_spec a b) as [->|Hne].
  - symmetry. apply N.eqb_refl.
  - symmetry. apply N.eqb_neq. intros Heq. apply Hne.
    rewrite <- (ascii_N_embedding a), <- (ascii_N_embedding b), Heq.
    reflexivity.
Qed.

Ltac case_N :=
  repeat match goal with
         | |- context [(?x =? ?y)%N] => destruct (N.eqb_spec x y)
         | |- context [(?x <=? ?y)%N] => destruct (N.leb_spec x y)
         end.

(** Lowering a character and comparing it with a small letter is comparing
    the two as letters. *)
Lemma tolower_same_letter (a b : ascii) :
  is_small b = true -> Ascii.eqb (tolower a) b = same_letter a b.
Proof.
  unfold is_small, same_letter, is_capital, tolower. intros Hb.
  apply andb_prop in Hb as [Hb1 Hb2].
  apply N.leb_le in Hb1. apply N.leb_le in Hb2.
  pose proof (N_ascii_bounded a) as Ha.
  destruct ((65 <=? N_of_ascii a) && (N_of_ascii a <=? 90))%N eqn:E.
  - apply andb_prop in E as [E1 E2].
    apply N.leb_le in E1. apply N.leb_le in E2.
    rewrite !eqb_N_of_ascii, N_ascii_embedding by lia.
    case_N; simpl; try reflexivity; lia.
  - rewrite !eqb_N_of_ascii.
    apply andb_false_iff in E.
    case_N; simpl; try reflexivity; try lia;
      destruct E as [E|E]; try discriminate E;
      (apply N.leb_gt in E; lia).
Qed.

Lemma same_letter_tolower (a : ascii) : same_letter a (tolower a) = true.
Proof.
  unfold same_letter, is_capital, tolower.
  pose proof (N_ascii_bounded a) as Ha.
  destruct ((65 <=? N_of_ascii a) && (N_of_ascii a <=? 90))%N eqn:E.
  - apply andb_prop in E as [E1 E2]. apply N.leb_le in E2.
    rewrite N_ascii_embedding by lia. rewrite N.eqb_refl, orb_true_r.
    reflexivity.
  - rewrite (proj2 (Ascii.eqb_eq a a) eq_refl). reflexivity.
Qed.

Lemma eq_ignore_case_tolower (s : string) :
  eq_ignore_case s (transform tolower s) = true.
Proof.
  induction s as [|c s IH]; simpl; [reflexivity|].
  rewrite same_letter_tolower, IH. reflexivity.
Qed.

(** Comparing the lowered string with a word of small letters is comparing
    the string with the word when case is ignored. *)
Lemma eqb_transform_tolower (t : string) :
  small_letters t = true ->
  forall s, String.eqb (transform tolower s) t = eq_ignore_case s t.
Proof.
  induction t as [|b t IH]; intros Ht [|a s]; simpl; try reflexivity.
  simpl in Ht. apply andb_prop in Ht as [Hb Ht].
  rewrite (tolower_same_letter a b Hb), (IH Ht s).
  destruct (same_letter a b); reflexivity.
Qed.

(** C8. The conversion to [bool] ignores case: it gives true exactly for
    the strings that are "true", "yes" or "y" when case is ignored, false
    exactly for those that are "false", "no" or "n", and throws "Couldn't
    reset value to" for everything else. It does so by lowering the case of
    the string, which leaves it the same string when case is ignored, and
    comparing with these words; the exception carries the lowered string;
    two strings that agree once lowered convert alike; and for a registered
    [bool*] this is what [ResetFromString] stores or throws. So "TRUE" and
    "Yes" give true, "nO" and "False" give false, and "Maybe", "1" and the
    empty string throw. *)
Theorem bool_FromString_spec `{Platform} (s : string) :
  let t := transform tolower s in
  let is_word x := eq_ignore_case s x = true in
  (bool_FromString s = Ok true <->
     is_word "true" \/ is_word "yes" \/ is_word "y") /\
  (bool_FromString s = Ok false <->
     is_word "false" \/ is_word "no" \/ is_word "n") /\
  (bool_FromString s = Throw (EResetValue t) <->
     ~ (is_word "true" \/ is_word "yes" \/ is_word "y" \/
        is_word "false" \/ is_word "no" \/ is_word "n")) /\
  eq_ignore_case s t = true /\
  (bool_FromString s = Ok true <-> t = "true" \/ t = "yes" \/ t = "y") /\
  (bool_FromString s = Ok false <-> t = "false" \/ t = "no" \/ t = "n") /\
  (bool_FromString s = Throw (EResetValue t) <->
     ~ (t = "true" \/ t = "yes" \/ t = "y" \/
        t = "false" \/ t = "no" \/ t = "n")) /\
  (forall s', transform tolower s' = t ->
     bool_FromString s' = bool_FromString s) /\
  bool_FromString t = bool_FromString s /\
  (forall (a : N) (w : World),
     ResetFromString (RPointer TBool) (Some a) s w =
       match bool_FromString s with
       | Ok b => store (Some a) (VBool b) w
       | Throw e => (Throw e, w)
       | Undefined => (Undefined, w)
       end) /\
  bool_FromString "TRUE" = Ok true /\
  bool_FromString "Yes" = Ok true /\
  bool_FromString "y" = Ok true /\
  bool_FromString "nO" = Ok false /\
  bool_FromString "False" = Ok false /\
  bool_FromString "N" = Ok false /\
  bool_FromString "Maybe" = Throw (EResetValue "maybe") /\
  bool_FromString "1" = Throw (EResetValue "1") /\
  bool_FromString EmptyString = Throw (EResetValue EmptyString).
Proof.
  intros t is_word.
  assert (Hword : forall x, small_letters x = true -> (is_word x <-> t = x)).
  { intros x Hx. unfold is_word, t.
    rewrite <- (eqb_transform_tolower x Hx). apply String.eqb_eq. }
  rewrite (Hword "true"), (Hword "yes"), (Hword "y"), (Hword "false"),
    (Hword "no"), (Hword "n") by reflexivity.
  assert (Hidem : transform tolower t = t)
    by (unfold t; apply transform_tolower_idem).
  assert (Htrue : bool_FromString s = Ok true <->
                  t = "true" \/ t = "yes" \/ t = "y").
  { unfold bool_FromString. fold t. split.
    - repeat case_eqb; simpl; intros; try discriminate; tauto.
    - intros [-> | [-> | ->]]; reflexivity. }
  assert (Hfalse : bool_FromString s = Ok false <->
                   t = "false" \/ t = "no" \/ t = "n").
  { unfold bool_FromString. fold t. split.
    - repeat case_eqb; simpl; intros; try discriminate; tauto.
    - intros [-> | [-> | ->]]; reflexivity. }
  assert (Hthrow : bool_FromString s = Throw (EResetValue t) <->
                   ~ (t = "true" \/ t = "yes" \/ t = "y" \/
                      t = "false" \/ t = "no" \/ t = "n")).
  { unfold bool_FromString. fold t. split.
    - repeat case_eqb; simpl; intros; try discriminate; tauto.
    - intros Hn. repeat case_eqb; simpl; try tauto. }
  split; [exact Htrue|]. split; [exact Hfalse|]. split; [exact Hthrow|].
  split; [apply eq_ignore_case_tolower|].
  split; [exact Htrue|]. split; [exact Hfalse|]. split; [exact Hthrow|].
  split.
  { intros s' Hs'. unfold bool_FromString. fold t. rewrite Hs'. reflexivity. }
  split.
  { unfold bool_FromString. fold t. rewrite Hidem. reflexivity. }
  split.
  { intros a w. unfold ResetFromString, ResetFromString_pointer. simpl.
    unfold_monad. unfold bool_FromString. fold t.
    repeat case_eqb; simpl; reflexivity. }
  repeat split.
Qed.

(** C3 (the code does not do this). Re-deriving a member function pointer
    from its string does nothing and returns normally, for both overloads,
    where the comment in each says "Should throw an error here"; [Reset] on
    a register that holds a member function with a remembered string returns
    normally and leaves the state as it was. *)
Theorem Reset_member_function_silent `{Platform} :
  (forall cls is_const p s (w : World),
     ResetFromString (RMemFn cls is_const) p s w = (Ok tt, w)) /\
  Reset_ Sample.Volume = (Ok tt, Sample.Volume).
Proof.
  split.
  - reflexivity.
  - vm_refl.
Qed.

(** ** Callbacks *)

Section StringOrder.

Lemma ltb_irrefl (a : string) : String.ltb a a = false.
Proof.
  unfold String.ltb.
  destruct (String.compare a a) eqn:E; try reflexivity.
  pose proof (String.compare_antisym a a) as Ha. rewrite E in Ha. discriminate.
Qed.

Lemma ltb_trans (a b c : string) :
  String.ltb a b = true -> String.ltb b c = true -> String.ltb a c = true.
Proof.
  unfold String.ltb. intros Hab Hbc.
  destruct (String.compare a b) eqn:E1; try discriminate.
  destruct (String.compare b c) eqn:E2; try discriminate.
  apply OrderedTypeEx.String_as_OT.cmp_lt in E1, E2.
  pose proof (OrderedTypeEx.String_as_OT.lt_trans _ _ _ E1 E2) as E3.
  apply OrderedTypeEx.String_as_OT.cmp_lt in E3.
  unfold OrderedTypeEx.String_as_OT.cmp in E3. rewrite E3. reflexivity.
Qed.

Lemma ltb_asym (a b : string) : String.ltb a b = true -> String.ltb b a = false.
Proof.
  intros Hab. destruct (String.ltb b a) eqn:Hba; [|reflexivity].
  pose proof (ltb_trans _ _ _ Hab Hba) as Haa.
  rewrite ltb_irrefl in Haa. discriminate.
Qed.

Lemma ltb_trichotomy (a b : string) :
  String.ltb a b = false -> String.ltb b a = false -> a = b.
Proof.
  unfold String.ltb. rewrite (String.compare_antisym a b).
  destruct (String.compare b a) eqn:E; simpl; intros; try discriminate.
  symmetry. apply String.compare_eq_iff. assumption.
Qed.

(** [b <= a] and [c <= b] give [c <= a], with [x <= y] read as [~ y < x]. *)
Lemma nlt_trans (a b c : string) :
  String.ltb a b = false -> String.ltb b c = false -> String.ltb a c = false.
Proof.
  intros Hab Hbc. destruct (String.ltb a c) eqn:Hac; [|reflexivity].
  destruct (String.ltb c b) eqn:Hcb.
  - rewrite (ltb_trans _ _ _ Hac Hcb) in Hab. discriminate.
  - pose proof (ltb_trichotomy _ _ Hbc Hcb) as ->.
    rewrite Hac in Hab. discriminate.
Qed.

End StringOrder.

Section Multimap.
Context {V : Type}.
Implicit Types (m : list (string * V)) (k : string) (v : V).

Lemma multimap_insert_Forall (P : string * V -> Prop) k v m :
  P (k, v) -> Forall P m -> Forall P (multimap_insert k v m).
Proof.
  intros Hk Hm. induction Hm as [|e m' He Hm' IH]; simpl.
  - repeat constructor. assumption.
  - destruct (String.ltb k e.1); repeat constructor; assumption.
Qed.

Lemma multimap_insert_ok k v m :
  multimap_ok m -> multimap_ok (multimap_insert k v m).
Proof.
  unfold multimap_ok. induction 1 as [|e m' Hm' IH He]; simpl.
  - repeat constructor.
  - destruct (String.ltb k e.1) eqn:Hlt.
    + constructor; [constructor; assumption|].
      constructor.
      * simpl. apply ltb_asym. assumption.
      * eapply Forall_impl; [exact He|]. simpl. intros y Hy.
        eapply nlt_trans; [exact Hy|]. apply ltb_asym. assumption.
    + constructor; [assumption|].
      apply multimap_insert_Forall; assumption.
Qed.

Lemma filter_key_above k m :
  Forall (fun y : string * V => String.ltb k y.1 = true) m ->
  filter (fun e : string * V => e.1 = k) m = [].
Proof.
  induction 1 as [|e m' He Hm' IH]; [reflexivity|].
  rewrite filter_cons. destruct (decide (e.1 = k)) as [Heq|]; [|assumption].
  rewrite Heq, ltb_irrefl in He. discriminate.
Qed.

Lemma sorted_above k (e : string * V) m :
  String.ltb k e.1 = true ->
  Forall (fun y : string * V => String.ltb y.1 e.1 = false) m ->
  Forall (fun y : string * V => String.ltb k y.1 = true) m.
Proof.
  intros Hk Hm. eapply Forall_impl; [exact Hm|]. simpl. intros y Hy.
  destruct (String.ltb k y.1) eqn:Hky; [reflexivity|].
  destruct (String.ltb y.1 k) eqn:Hyk.
  - rewrite (ltb_trans _ _ _ Hyk Hk) in Hy. discriminate.
  - pose proof (ltb_trichotomy _ _ Hky Hyk) as Heq.
    rewrite <- Heq, Hk in Hy. discriminate.
Qed.

(** Insertion puts the new entry behind the entries it shares its key with
    and leaves the entries of every other key as they were. *)
Lemma filter_multimap_insert k' k v m :
  multimap_ok m ->
  filter (fun e : string * V => e.1 = k') (multimap_insert k v m) =
  (filter (fun e : string * V => e.1 = k') m ++
   filter (fun e : string * V => e.1 = k') [(k, v)])%list.
Proof.
  unfold multimap_ok. induction 1 as [|e m' Hm' IH He]; simpl.
  - reflexivity.
  - destruct (String.ltb k e.1) eqn:Hlt.
    + rewrite (filter_cons _ (k, v)), (filter_cons _ (k, v) []). simpl.
      destruct (decide (k = k')) as [<-|Hne].
      * rewrite (filter_key_above k (e :: m')); [reflexivity|].
        constructor; [assumption|]. eapply sorted_above; eassumption.
      * rewrite filter_nil, app_nil_r. reflexivity.
    + rewrite !(filter_cons _ e). rewrite IH.
      destruct (decide (e.1 = k')); reflexivity.
Qed.

Lemma until_upper_bound_filter k m :
  multimap_ok m ->
  Forall (fun y : string * V => String.ltb y.1 k = false) m ->
  until_upper_bound k m = filter (fun e : string * V => e.1 = k) m.
Proof.
  unfold multimap_ok. induction 1 as [|e m' Hm' IH He]; intros Hge; simpl.
  - reflexivity.
  - apply Forall_cons in Hge as [Hek Hge].
    rewrite filter_cons.
    destruct (String.ltb k e.1) eqn:Hlt.
    + destruct (decide (e.1 = k)) as [Heq|_].
      * rewrite Heq, ltb_irrefl in Hlt. discriminate.
      * symmetry. apply filter_key_above. eapply sorted_above; eassumption.
    + pose proof (ltb_trichotomy _ _ Hlt Hek) as Heq.
      destruct (decide (e.1 = k)); [|congruence].
      rewrite IH by assumption. reflexivity.
Qed.

(** On a multimap, [equal_range] is the entries of that key, in their order. *)
Lemma equal_range_filter k m :
  multimap_ok m -> equal_range k m = filter (fun e : string * V => e.1 = k) m.
Proof.
  unfold equal_range, multimap_ok. induction 1 as [|e m' Hm' IH He]; simpl.
  - reflexivity.
  - destruct (String.ltb e.1 k) eqn:Hlt.
    + rewrite filter_cons.
      destruct (decide (e.1 = k)) as [Heq|_]; [|assumption].
      rewrite Heq, ltb_irrefl in Hlt. discriminate.
    + apply until_upper_bound_filter; [constructor; assumption|].
      constructor; [assumption|].
      eapply Forall_impl; [exact He|]. simpl. intros y Hy.
      eapply nlt_trans; eassumption.
Qed.

Lemma equal_range_inserts k (adds : list (string * V)) m :
  multimap_ok m ->
  let m' := fold_left (fun m (e : string * V) => multimap_insert e.1 e.2 m) adds m in
  multimap_ok m' /\
  equal_range k m' =
    (equal_range k m ++ filter (fun e : string * V => e.1 = k) adds)%list.
Proof.
  revert m. induction adds as [|[k0 v0] adds IH]; intros m Hm; simpl.
  - split; [assumption|]. rewrite filter_nil, app_nil_r. reflexivity.
  - destruct (IH (multimap_insert k0 v0 m)) as [Hok Heq].
    { apply multimap_insert_ok; assumption. }
    split; [assumption|]. simpl in Heq. rewrite Heq.
    rewrite !equal_range_filter by (try apply multimap_insert_ok; assumption).
    rewrite filter_multimap_insert by assumption.
    rewrite (filter_cons _ (k0, v0) adds), (filter_cons _ (k0, v0) []).
    simpl. destruct (decide (k0 = k)); rewrite <- app_assoc; reflexivity.
Qed.

End Multimap.

Section Callbacks.
Context `{Platform}.


End Callbacks.

(** ** The iterators of a multimap *)

Section Iterators.
Context {V : Type}.
Implicit Types (m : list (string * V)) (k : string).

Lemma upper_bound_lower_bound k m :
  upper_bound k (lower_bound k m) = upper_bound k m.
Proof.
  induction m as [|e m IH]; simpl; [reflexivity|].
  destruct (String.ltb e.1 k) eqn:Hlt; [|reflexivity].
  rewrite (ltb_asym _ _ Hlt). exact IH.
Qed.

Lemma it_first_upper_bound k m i :
  it_first (upper_bound k m) <> it_node k i.
Proof.
  induction m as [|e m IH]; simpl; [discriminate|].
  destruct (String.ltb k e.1) eqn:Hlt; [|exact IH].
  simpl. intros [= Heq _]. rewrite Heq, ltb_irrefl in Hlt. discriminate.
Qed.

(** [equal_range] gives the same iterator twice when no entry has the key,
    and starts at the first node of the key otherwise. *)
Lemma it_first_lower_bound k m :
  it_first (lower_bound k m) =
  match equal_range k m with
  | [] => it_first (upper_bound k m)
  | _ :: _ => it_node k 0
  end.
Proof.
  unfold equal_range. rewrite <- (upper_bound_lower_bound k m).
  assert (Hge : match lower_bound k m with
                | [] => True
                | e :: _ => String.ltb e.1 k = false
                end).
  { induction m as [|e m IH]; simpl; [exact I|].
    destruct (String.ltb e.1 k) eqn:Hlt; [exact IH|exact Hlt]. }
  destruct (lower_bound k m) as [|e l]; simpl; [reflexivity|].
  destruct (String.ltb k e.1) eqn:Hlt; [reflexivity|].
  simpl. rewrite (ltb_trichotomy _ _ Hlt Hge). reflexivity.
Qed.

End Iterators.

(** ** The loop over the callbacks of a name *)

Section Invocation.
Context `{Platform}.
Variable table : ObjectRegister -> list (string * N).
Variable invoke : N -> M unit.

(** The place of the iterator after [i] callbacks of the group. *)
Local Abbreviation place m aName i :=
  (if decide (i < length (equal_range aName m)) then it_node aName i
   else it_first (upper_bound aName m)).

(** While the callbacks leave the table alone, the loop calls the entries of
    the group one after the other, and ends where a callback does not
    return. *)
Lemma call_range_group (aName : string) (m : list (string * N)) :
  (forall e, e ∈ equal_range aName m -> quiet table (invoke e.2)) ->
  forall fuel i w,
    table (objects w) = m ->
    length (equal_range aName m) - i < fuel ->
    call_range table invoke fuel (place m aName i)
      (it_first (upper_bound aName m)) w
    = Some (for_each (drop i (equal_range aName m)) (fun e => invoke e.2) w).
Proof.
  intros Hquiet. induction fuel as [|fuel IH]; intros i w Hm Hfuel; [lia|].
  simpl. destruct (decide (i < length (equal_range aName m))) as [Hi|Hi].
  - destruct (decide (it_node aName i = it_first (upper_bound aName m)))
      as [Heq|_].
    { exfalso. symmetry in Heq. exact (it_first_upper_bound _ _ _ Heq). }
    unfold it_deref at 1. rewrite Hm.
    destruct (lookup_lt_is_Some_2 _ _ Hi) as [e He].
    rewrite He, (drop_S _ _ _ He). simpl. unfold bind.
    pose proof (Hquiet e (list_elem_of_lookup_2 _ _ _ He) w) as Hsame.
    destruct (invoke e.2 w) as [[[]|x|] w']; simpl in Hsame;
      [|reflexivity|reflexivity].
    rewrite Hsame, Hm. unfold it_next, it_deref.
    specialize (IH (S i) w' (eq_trans Hsame Hm)).
    destruct (equal_range aName m !! S i) as [e'|] eqn:He'.
    + apply lookup_lt_Some in He'.
      destruct (decide (S i < length (equal_range aName m))); [|lia].
      apply IH. lia.
    + apply lookup_ge_None in He'.
      destruct (decide (S i < length (equal_range aName m))); [lia|].
      apply IH. lia.
  - destruct (decide (it_first (upper_bound aName m)
                      = it_first (upper_bound aName m))); [|congruence].
    rewrite drop_ge by lia. reflexivity.
Qed.

Lemma do_callbacks_group (aName : string) (fuel : nat) (w : World) :
  let group := equal_range aName (table (objects w)) in
  (forall e, e ∈ group -> quiet table (invoke e.2)) ->
  length group < fuel ->
  do_callbacks table invoke fuel aName w
  = Some (for_each group (fun e => invoke e.2) w).
Proof.
  intros group Hquiet Hfuel. unfold do_callbacks.
  rewrite it_first_lower_bound.
  pose proof (call_range_group aName (table (objects w)) Hquiet fuel 0 w
                eq_refl) as Hrun.
  fold group in Hrun |- *. rewrite drop_0 in Hrun.
  destruct group as [|e l] eqn:Hgroup; simpl in Hrun |- *.
  - apply Hrun. lia.
  - destruct (decide (0 < S (length l))); [|lia]. apply Hrun. simpl in *. lia.
Qed.

(** A loop ends with the first callback that does not return. *)
Lemma for_each_stops {A : Type} (body : A -> M unit) (pre post : list A)
    (x : A) (w wi wi' : World) (r : outcome unit) :
  for_each pre body w = (Ok tt, wi) ->
  body x wi = (r, wi') -> r <> Ok tt ->
  for_each (pre ++ x :: post) body w = (r, wi').
Proof.
  revert w. induction pre as [|y pre IH]; intros w Hpre Hx Hr; simpl in *.
  - injection Hpre as ->. unfold bind. rewrite Hx.
    destruct r as [[]|e|]; [congruence|reflexivity|reflexivity].
  - unfold bind in Hpre |- *.
    destruct (body y w) as [[[]|e|] w0]; try discriminate.
    apply IH; assumption.
Qed.

End Invocation.




(** ** Iterating over a [std::map] *)

Section StdMap.
Context {V : Type}.

Lemma leb_ltb (a b : string) : String.leb a b = negb (String.ltb b a).
Proof.
  unfold String.leb, String.ltb. rewrite (String.compare_antisym a b).
  destruct (String.compare b a); reflexivity.
Qed.

Lemma key_le_total : Total (@key_le V).
Proof. intros x y. unfold key_le. apply String.leb_total. Qed.

Lemma key_le_trans : Transitive (@key_le V).
Proof.
  intros x y z. unfold key_le. rewrite !leb_ltb, !negb_true_iff.
  intros Hxy Hyz. eapply nlt_trans; eassumption.
Qed.

Lemma elem_of_std_map_items (m : gmap string V) (k : string) (v : V) :
  (k, v) ∈ std_map_items m <-> m !! k = Some v.
Proof.
  unfold std_map_items. rewrite merge_sort_Permutation.
  apply elem_of_map_to_list.
Qed.

Lemma NoDup_std_map_items (m : gmap string V) :
  NoDup (std_map_items m).*1.
Proof.
  unfold std_map_items. rewrite merge_sort_Permutation.
  apply NoDup_fst_map_to_list.
Qed.

(** The keys ascend along [std_map_items]. *)
Lemma std_map_items_sorted (m : gmap string V) :
  StronglySorted key_le (std_map_items m).
Proof.
  apply StronglySorted_merge_sort; [apply key_le_trans|apply key_le_total].
Qed.

Lemma std_map_items_empty : std_map_items (∅ : gmap string V) = [].
Proof. unfold std_map_items. rewrite map_to_list_empty. reflexivity. Qed.

End StdMap.

(** ** Computations that only read the object register *)

Section Readers.
Context `{Platform}.

Lemma reads_objects_self {A : Type} (m : M A) (w : World) :
  reads_objects m -> m w = ((m w).1, w).
Proof. intros Hm. apply Hm. reflexivity. Qed.

Lemma reads_ret {A : Type} (a : A) : reads_objects (ret a).
Proof. intros w w' _. reflexivity. Qed.

Lemma reads_throw {A : Type} (e : exn) : reads_objects (@throw _ A e).
Proof. intros w w' _. reflexivity. Qed.

Lemma reads_undefined {A : Type} : reads_objects (@undefined _ A).
Proof. intros w w' _. reflexivity. Qed.

Lemma reads_bind {A B : Type} (m : M A) (k : A -> M B) :
  reads_objects m -> (forall a, reads_objects (k a)) ->
  reads_objects (bind m k).
Proof.
  intros Hm Hk w w' Heq. unfold bind.
  rewrite (Hm w w' Heq), (reads_objects_self m w Hm). simpl.
  destruct (m w).1 as [a| |]; simpl; try reflexivity.
  rewrite (Hk a w w' Heq), (reads_objects_self (k a) w (Hk a)). reflexivity.
Qed.

Lemma reads_get_objects_bind {B : Type} (k : ObjectRegister -> M B) :
  (forall o, reads_objects (k o)) -> reads_objects (bind get_objects k).
Proof.
  intros Hk w w' Heq. unfold bind, get_objects. rewrite Heq.
  rewrite (Hk (objects w) w w' Heq).
  rewrite (reads_objects_self _ w (Hk (objects w))). reflexivity.
Qed.

Lemma reads_Get (T : regty) (k : string) : reads_objects (Get T k).
Proof.
  apply reads_get_objects_bind. intros o.
  destruct (Registers o !! type_name T).
  - intros w w' _. reflexivity.
  - apply reads_throw.
Qed.

Lemma reads_HasKey (k : string) : reads_objects (HasKey k).
Proof.
  apply reads_get_objects_bind. intros o.
  destruct (TypeNames o !! k); apply reads_ret.
Qed.

Lemma reads_GetString (k : string) : reads_objects (GetString k).
Proof.
  apply reads_get_objects_bind. intros o.
  destruct (TypeNames o !! k) as [tn|]; [|apply reads_throw].
  destruct (Registers o !! tn); [|apply reads_undefined].
  intros w w' _. reflexivity.
Qed.

Lemma reads_push_all (conv : string -> M val) (toks : list string) :
  (forall tok, reads_objects (conv tok)) ->
  forall v, reads_objects (push_all conv toks v).
Proof.
  intros Hconv. induction toks as [|tok toks IH]; intros v; simpl.
  - apply reads_ret.
  - apply reads_bind; [apply Hconv|]. intros temp. apply IH.
Qed.

Lemma reads_FromString (t : ty) (s : string) : reads_objects (FromString t s).
Proof.
  revert s. induction t as [n| | |cls|t' IH]; intros s; simpl.
  - destruct (lexical_cast n s); [apply reads_ret|apply reads_throw].
  - destruct (bool_FromString s);
      [apply reads_ret|apply reads_throw|apply reads_undefined].
  - apply reads_bind.
    + apply reads_get_objects_bind. intros o. apply reads_ret.
    + intros sim. destruct (DateTime_FromString s sim);
        [apply reads_ret|apply reads_throw].
  - apply reads_bind; [apply reads_Get|]. intros temp. apply reads_ret.
  - apply reads_bind; [apply reads_push_all; exact IH|].
    intros v. apply reads_ret.
Qed.

End Readers.

(** ** Collections *)

Section Tokens.

Lemma append_cons (x : ascii) (a b : string) :
  (String x a ++ b)%string = String x (a ++ b).
Proof. reflexivity. Qed.

Lemma append_assoc (a b c : string) : ((a ++ b) ++ c = a ++ (b ++ c))%string.
Proof.
  induction a as [|x a IH]; [reflexivity|].
  rewrite !append_cons, IH. reflexivity.
Qed.

Lemma append_nil_r (a : string) : (a ++ EmptyString)%string = a.
Proof.
  induction a as [|x a IH]; [reflexivity|]. rewrite append_cons, IH. reflexivity.
Qed.

Lemma tokens_from_token (seps cur tok rest : string) :
  delim_free seps tok = true ->
  tokens_from seps cur (tok ++ rest) = tokens_from seps (cur ++ tok) rest.
Proof.
  revert cur. induction tok as [|c tok IH]; intros cur Hfree.
  - rewrite append_nil_r. reflexivity.
  - simpl in Hfree. apply andb_prop in Hfree as [Hc Hfree].
    apply negb_true_iff in Hc. rewrite append_cons. simpl. rewrite Hc.
    rewrite IH by assumption. rewrite append_assoc. reflexivity.
Qed.

Lemma tokens_from_delim (seps cur : string) (c : ascii) (rest : string) :
  is_delim seps c = true ->
  tokens_from seps cur (String c rest) =
  ((if String.eqb cur EmptyString then [] else [cur]) ++
   tokens_from seps EmptyString rest)%list.
Proof.
  intros Hc. simpl. rewrite Hc.
  destruct (String.eqb cur EmptyString); reflexivity.
Qed.

Lemma tokens_from_concat (seps : string) (elems : list string) :
  is_delim seps "]"%char = true ->
  is_delim seps ","%char = true ->
  is_delim seps " "%char = true ->
  Forall (fun e => e <> EmptyString /\ delim_free seps e = true) elems ->
  tokens_from seps EmptyString (String.concat ", " elems ++ "]") = elems.
Proof.
  intros Hclose Hcomma Hspace.
  induction 1 as [|e elems [Hne Hfree] Helems IH].
  - change (String.concat ", " [] ++ "]")%string
      with (String "]"%char EmptyString).
    rewrite tokens_from_delim by assumption. reflexivity.
  - assert (Hcur : String.eqb e EmptyString = false)
      by (apply String.eqb_neq; assumption).
    destruct elems as [|e' elems].
    + change (String.concat ", " [e]) with e.
      rewrite tokens_from_token by assumption.
      change (EmptyString ++ e)%string with e.
      rewrite tokens_from_delim by assumption. rewrite Hcur. reflexivity.
    + change (String.concat ", " (e :: e' :: elems))
        with (e ++ ", " ++ String.concat ", " (e' :: elems))%string.
      rewrite !append_assoc.
      rewrite tokens_from_token by assumption.
      change (EmptyString ++ e)%string with e.
      change (", " ++ String.concat ", " (e' :: elems) ++ "]")%string
        with (String ","%char (String " "%char
                (String.concat ", " (e' :: elems) ++ "]")))%string.
      rewrite tokens_from_delim by assumption. rewrite Hcur.
      rewrite tokens_from_delim by assumption. simpl.
      f_equal. exact IH.
Qed.

Lemma tokenizer_collection_string (seps : string) (elems : list string) :
  is_delim seps "["%char = true ->
  is_delim seps "]"%char = true ->
  is_delim seps ","%char = true ->
  is_delim seps " "%char = true ->
  Forall (fun e => e <> EmptyString /\ delim_free seps e = true) elems ->
  tokenizer seps (collection_string elems) = elems.
Proof.
  intros Hopen Hclose Hcomma Hspace Helems.
  unfold tokenizer, collection_string.
  change ("[" ++ String.concat ", " elems ++ "]")%string
    with (String "["%char (String.concat ", " elems ++ "]")).
  rewrite tokens_from_delim by assumption. simpl.
  apply tokens_from_concat; assumption.
Qed.

End Tokens.

Section Vectors.
Context `{Platform}.

Lemma for_each_app {A : Type} (l1 l2 : list A) (body : A -> M unit) (w : World) :
  for_each (l1 ++ l2) body w =
  bind (for_each l1 body) (fun _ => for_each l2 body) w.
Proof.
  revert w. induction l1 as [|x l1 IH]; intros w; simpl.
  - reflexivity.
  - unfold bind in *. destruct (body x w) as [[[]| |] w']; try reflexivity.
    apply IH.
Qed.

Lemma with_heap_id (w : World) (a : N) (v : val) :
  heap w !! a = Some v -> with_heap w (<[a := v]> (heap w)) = w.
Proof.
  intros Ha. destruct w as [o h n c]. unfold with_heap. simpl in *.
  rewrite insert_id by assumption. reflexivity.
Qed.

Lemma with_heap_with_heap (w : World) (h h' : gmap N val) :
  with_heap (with_heap w h) h' = with_heap w h'.
Proof. reflexivity. Qed.

(** The loop of the [vector<T>*] overload, as far as the tokens convert. *)
Lemma vector_loop (t : ty) (a : N) (toks : list string) :
  forall (vs done : list val) (w : World),
    heap w !! a = Some (VVector done) ->
    Forall2 (fun tok v => FromString t tok w = (Ok v, w)) toks vs ->
    for_each toks
      (fun tok => bind (FromString t tok) (fun temp => push_back (Some a) temp)) w
    = (Ok tt, with_heap w (<[a := VVector (done ++ vs)]> (heap w))).
Proof.
  induction toks as [|tok toks IH]; intros vs done w Ha Hconv.
  - apply Forall2_nil_inv_l in Hconv as ->. simpl.
    rewrite app_nil_r, with_heap_id by assumption. reflexivity.
  - apply Forall2_cons_inv_l in Hconv as (v & vs' & Hv & Hvs & ->).
    simpl. unfold bind at 1 2. rewrite Hv. simpl. rewrite Ha.
    unfold set_heap.
    rewrite (IH vs' (done ++ [v])%list).
    + simpl. rewrite insert_insert_eq, <- app_assoc. reflexivity.
    + simpl. apply lookup_insert_eq.
    + eapply Forall2_impl; [exact Hvs|]. intros tok' v' Hv'.
      rewrite (reads_FromString t tok' w) by reflexivity.
      rewrite Hv'. reflexivity.
Qed.

Lemma FromString_frame (t : ty) (s : string) (r : outcome val) (w w' : World) :
  objects w' = objects w ->
  FromString t s w = (r, w) -> FromString t s w' = (r, w').
Proof.
  intros Ho Hr. rewrite (reads_FromString t s w w' Ho), Hr. reflexivity.
Qed.

Lemma FromString_same_world (t : ty) (s : string) (w : World) :
  FromString t s w = ((FromString t s w).1, w).
Proof. apply reads_objects_self, reads_FromString. Qed.

End Vectors.

(** C7. A registered [vector<T>*] is re-derived from its string the
    following way. The string is cut into tokens at the separators. When
    every token converts as an element, the variable ends as the vector of
    the converted tokens, in their order, whatever it held before. When a
    token fails to convert, its exception is thrown and the variable holds
    the elements converted before it. When brackets, comma and space are
    among the separators, the tokens of the bracketed, comma-separated list
    of non-empty, separator-free elements are these elements, and the empty
    pair of brackets makes the vector empty. *)
Theorem vector_ResetFromString `{Platform} (t : ty) (a : N) (w : World) :
  (forall s vs,
     Forall2 (fun tok v => FromString t tok w = (Ok v, w)) (tokenizer sSeps s) vs ->
     ResetFromString (RPointer (TVector t)) (Some a) s w =
       (Ok tt, with_heap w (<[a := VVector vs]> (heap w)))) /\
  (forall s pre tok post vs e,
     tokenizer sSeps s = (pre ++ tok :: post)%list ->
     Forall2 (fun tok v => FromString t tok w = (Ok v, w)) pre vs ->
     FromString t tok w = (Throw e, w) ->
     ResetFromString (RPointer (TVector t)) (Some a) s w =
       (Throw e, with_heap w (<[a := VVector vs]> (heap w)))) /\
  (is_delim sSeps "["%char = true -> is_delim sSeps "]"%char = true ->
   is_delim sSeps ","%char = true -> is_delim sSeps " "%char = true ->
   (forall elems,
      Forall (fun e => e <> EmptyString /\ delim_free sSeps e = true) elems ->
      tokenizer sSeps (collection_string elems) = elems) /\
   ResetFromString (RPointer (TVector t)) (Some a) (collection_string []) w =
     (Ok tt, with_heap w (<[a := VVector []]> (heap w)))).
Proof.
  set (w0 := with_heap w (<[a := VVector []]> (heap w))).
  assert (Hstart : forall s,
    ResetFromString (RPointer (TVector t)) (Some a) s w =
    for_each (tokenizer sSeps s)
      (fun tok => bind (FromString t tok) (fun temp => push_back (Some a) temp))
      w0) by reflexivity.
  assert (Hconv : forall toks vs,
    Forall2 (fun tok v => FromString t tok w = (Ok v, w)) toks vs ->
    Forall2 (fun tok v => FromString t tok w0 = (Ok v, w0)) toks vs).
  { intros toks vs Hvs. eapply Forall2_impl; [exact Hvs|].
    intros tok v Hv.
    apply (FromString_frame t tok (Ok v) w w0); [reflexivity|exact Hv]. }
  assert (Hloop : forall toks vs,
    Forall2 (fun tok v => FromString t tok w = (Ok v, w)) toks vs ->
    for_each toks
      (fun tok => bind (FromString t tok) (fun temp => push_back (Some a) temp))
      w0 = (Ok tt, with_heap w (<[a := VVector vs]> (heap w)))).
  { intros toks vs Hvs.
    rewrite (vector_loop t a toks vs [] w0).
    - unfold w0. simpl. rewrite insert_insert_eq. reflexivity.
    - apply lookup_insert_eq.
    - apply Hconv. exact Hvs. }
  split; [|split].
  - intros s vs Hvs. rewrite Hstart. apply Hloop. exact Hvs.
  - intros s pre tok post vs e Htoks Hvs Htok.
    rewrite Hstart, Htoks, for_each_app. unfold bind at 1.
    rewrite (Hloop pre vs Hvs). simpl. unfold bind at 1 2.
    rewrite (FromString_frame t tok (Throw e) w
               (with_heap w (<[a := VVector vs]> (heap w))) eq_refl Htok).
    reflexivity.
  - intros Hopen Hclose Hcomma Hspace. split.
    + intros elems Helems. apply tokenizer_collection_string; assumption.
    + rewrite Hstart.
      rewrite (tokenizer_collection_string sSeps []) by (assumption || constructor).
      reflexivity.
Qed.

Lemma vector_ResetFromString_witness :
  let w := with_heap Sample.Lake
             (<[10%N := VVector [VShared None]]> (heap Sample.Lake)) in
  ResetFromString (RPointer (TVector (TLexical "unsigned"))) (Some 10%N)
    "[12, 7, 30]" w =
    (Ok tt, with_heap w (<[10%N := VVector [Sample.number 12; Sample.number 7;
                                           Sample.number 30]]> (heap w))) /\
  ResetFromString (RPointer (TVector (TLexical "unsigned"))) (Some 10%N)
    "[12, x, 30]" w =
    (Throw (EResetValue "x"),
     with_heap w (<[10%N := VVector [Sample.number 12]]> (heap w))) /\
  tokenizer (@sSeps Sample.platform) (collection_string ["mersey"; "forth"])
    = ["mersey"; "forth"] /\
  ResetFromString (RPointer (TVector (TLexical "unsigned"))) (Some 10%N)
    (collection_string []) w =
    (Ok tt, with_heap w (<[10%N := VVector []]> (heap w))).
Proof.
  intros w.
  destruct (vector_ResetFromString (TLexical "unsigned") 10%N w)
    as (Hall & Hfail & Hformat).
  split; [|split].
  - apply Hall. repeat constructor.
  - apply (Hfail "[12, x, 30]" ["12"] "x" ["30"]).
    + reflexivity.
    + repeat constructor.
    + reflexivity.
  - destruct Hformat as [Htoks Hempty]; try reflexivity.
    split; [|exact Hempty].
    apply Htoks. repeat constructor; discriminate.
Defined.

(** ** The object factory *)

Section Fields.
Context `{Platform}.

Lemma MakeObject_unfold (T : ObjectClass) (cls name : string)
    (ini : gmap string string) (w : World) :
  MakeObject T cls name ini w =
  bind (make_instance T name)
    (fun _ => for_each (std_map_items ini) (try_set_field cls name)) w.
Proof.
  unfold MakeObject, make_instance, bind.
  destruct (new_object T name w) as [[thing| |] w0]; try reflexivity.
Qed.

Lemma SetString_Throw (k s : string) (w w' : World) (e : exn) :
  SetString k s w = (Throw e, w') ->
  e = ETypenameNotFound k /\ w' = w /\ TypeNames (objects w) !! k = None.
Proof.
  unfold SetString. unfold_monad.
  destruct (TypeNames (objects w) !! k) as [tn|] eqn:Hk.
  - destruct (Registers (objects w) !! tn); discriminate.
  - intros [= <- <-]. repeat split.
Qed.

Lemma SetString_missing (k s : string) (w : World) :
  TypeNames (objects w) !! k = None ->
  SetString k s w = (Throw (ETypenameNotFound k), w).
Proof. intros Hk. unfold SetString. unfold_monad. rewrite Hk. reflexivity. Qed.

Lemma SetString_Ok (k s : string) (w w' : World) :
  SetString k s w = (Ok tt, w') ->
  exists tn r,
    TypeNames (objects w) !! k = Some tn /\
    Registers (objects w) !! tn = Some r /\
    objects w' = set_Registers (objects w)
                   (<[tn := Register_SetString r k s]> (Registers (objects w))) /\
    heap w' = heap w /\ next_object w' = next_object w /\ calls w' = calls w.
Proof.
  unfold SetString. unfold_monad.
  destruct (TypeNames (objects w) !! k) as [tn|] eqn:Hk; [|discriminate].
  destruct (Registers (objects w) !! tn) as [r|] eqn:Hr; [|discriminate].
  intros [= <-]. exists tn, r. repeat split; assumption.
Qed.

Lemma SetString_declared (k s : string) (w : World) :
  index_ok (objects w) ->
  is_Some (TypeNames (objects w) !! k) ->
  exists w', SetString k s w = (Ok tt, w') /\
    TypeNames (objects w') = TypeNames (objects w) /\
    index_ok (objects w').
Proof.
  intros Hok [tn Hk].
  destruct (Hok k tn Hk) as [r Hr].
  unfold SetString. unfold_monad. rewrite Hk, Hr.
  eexists. split; [reflexivity|]. simpl. split; [reflexivity|].
  intros k' tn' Hk'. simpl in *.
  destruct (decide (tn = tn')) as [<-|Hne].
  - rewrite lookup_insert_eq. eauto.
  - rewrite lookup_insert_ne by assumption. eapply Hok; eassumption.
Qed.

Lemma try_set_field_Ok (cls name : string) (nv : string * string) (w w' : World) :
  set_field cls name nv w = (Ok tt, w') ->
  try_set_field cls name nv w = (Ok tt, w').
Proof. intros Hset. unfold try_set_field, try_catch. rewrite Hset. reflexivity. Qed.

Lemma for_each_try_set_field_Ok (cls name : string) (l : list (string * string)) :
  forall w w',
    for_each l (set_field cls name) w = (Ok tt, w') ->
    for_each l (try_set_field cls name) w = (Ok tt, w').
Proof.
  induction l as [|nv l IH]; intros w w'; simpl; [trivial|].
  unfold bind. destruct (set_field cls name nv w) as [[[]| |] w0] eqn:Hset;
    try discriminate.
  rewrite (try_set_field_Ok _ _ _ _ _ Hset). apply IH.
Qed.

(** The loop of [MakeObject] stops at the first field that cannot be set. *)
Lemma for_each_try_set_field_Throw (cls name : string)
    (pre post : list (string * string)) (nv : string * string)
    (w wi wi' : World) (e : exn) :
  for_each pre (set_field cls name) w = (Ok tt, wi) ->
  set_field cls name nv wi = (Throw e, wi') ->
  for_each (pre ++ nv :: post) (try_set_field cls name) w =
    (Throw (EMemberNotDefined nv.1 cls e), wi').
Proof.
  intros Hpre Hnv. rewrite for_each_app. unfold bind at 1.
  rewrite (for_each_try_set_field_Ok _ _ _ _ _ Hpre). simpl.
  unfold bind, try_set_field, try_catch. rewrite Hnv. reflexivity.
Qed.

Lemma for_each_set_field_declared (cls name : string) (l : list (string * string)) :
  forall w,
    index_ok (objects w) ->
    Forall (fun nv => is_Some (TypeNames (objects w) !! RegisterString cls name nv.1)) l ->
    exists w', for_each l (set_field cls name) w = (Ok tt, w') /\
      TypeNames (objects w') = TypeNames (objects w) /\
      index_ok (objects w').
Proof.
  induction l as [|nv l IH]; intros w Hok Hl; simpl.
  - exists w. repeat split. assumption.
  - apply Forall_cons in Hl as [Hnv Hl].
    destruct (SetString_declared _ nv.2 w Hok Hnv) as (w0 & Hset & Htn & Hok0).
    destruct (IH w0 Hok0) as (w' & Hrun & Htn' & Hok').
    { rewrite Htn. exact Hl. }
    exists w'. unfold bind, set_field at 1. rewrite Hset.
    split; [exact Hrun|]. split; [congruence|assumption].
Qed.

(** A list with an element that satisfies [P] splits at the first one. *)
Lemma split_at_first {A : Type} (P : A -> Prop) `{forall x, Decision (P x)}
    (l : list A) :
  Exists P l ->
  exists pre x post, l = (pre ++ x :: post)%list /\ Forall (fun y => ~ P y) pre /\ P x.
Proof.
  induction l as [|y l IH]; intros Hex.
  - inversion Hex.
  - destruct (decide (P y)) as [Hy|Hy].
    + exists [], y, l. repeat split; [constructor|assumption].
    + apply Exists_cons in Hex as [Hex|Hex]; [contradiction|].
      destruct (IH Hex) as (pre & x & post & -> & Hpre & Hx).
      exists (y :: pre), x, post. repeat split; [constructor|]; assumption.
Qed.

End Fields.

Lemma leb_refl (a : string) : String.leb a a = true.
Proof. rewrite leb_ltb, ltb_irrefl. reflexivity. Qed.

Lemma ltb_before (a b c : string) :
  String.leb a b = true -> a <> b -> String.leb b c = true ->
  String.ltb a c = true.
Proof.
  rewrite !leb_ltb, !negb_true_iff. intros Hba Hne Hcb.
  destruct (String.ltb a b) eqn:Hab.
  - destruct (String.ltb a c) eqn:Hac; [reflexivity|].
    rewrite (nlt_trans _ _ _ Hac Hcb) in Hab. discriminate.
  - exfalso. exact (Hne (ltb_trichotomy _ _ Hab Hba)).
Qed.

Section RegisteredFields.
Context `{Platform}.

(** The strings of fields whose keys are in the type index, with type names
    that have their register, are set one after the other. *)
Lemma for_each_set_field_registered (cls name : string)
    (l : list (string * string)) :
  forall w,
    Forall (fun nv => exists tn,
              TypeNames (objects w) !! RegisterString cls name nv.1 = Some tn /\
              is_Some (Registers (objects w) !! tn)) l ->
    exists w', for_each l (set_field cls name) w = (Ok tt, w') /\
      TypeNames (objects w') = TypeNames (objects w).
Proof.
  induction l as [|nv l IH]; intros w Hl; simpl.
  - exists w. split; reflexivity.
  - apply Forall_cons in Hl as [(tn & Hk & [r Hr]) Hl].
    assert (Hset : set_field cls name nv w =
              (Ok tt, (set_field cls name nv w).2)).
    { apply run_outcome. unfold set_field, SetString. unfold_monad.
      rewrite Hk, Hr. reflexivity. }
    destruct (SetString_Ok _ _ _ _ Hset) as (tn0 & r0 & Hk0 & Hr0 & Ho & _).
    assert (tn0 = tn) by congruence. subst tn0.
    destruct (IH (set_field cls name nv w).2) as (w' & Hrun & Htn).
    { eapply Forall_impl; [exact Hl|]. simpl.
      intros nv' (tn' & Hk' & Hr'). exists tn'. rewrite Ho. simpl.
      split; [exact Hk'|].
      destruct (decide (tn' = tn)) as [->|Hne].
      - rewrite lookup_insert_eq. eauto.
      - rewrite lookup_insert_ne by congruence. exact Hr'. }
    exists w'. unfold bind. rewrite Hset. split; [exact Hrun|].
    rewrite Htn, Ho. reflexivity.
Qed.

End RegisteredFields.

(** C6 (as amended). Let the factory make an object of a class whose maker
    is [MakeObject<T>], and let the making and registration of the object
    return normally. If the field mapping names a field whose key is not in
    the type index then (neither this registration nor anything before it
    has put the key there), and if every field before that field, in the
    order of the keys, whose key is in the type index has a type name with a
    register, then [Make] throws: the
    exception is that of [SetString] for a key without type name, wrapped
    into "member ... not defined for ..." with the name of the field and the
    name of the class. The field it names is a field of the mapping whose
    key is not in the type index, the least such field in the order of the
    keys. *)
Theorem Make_missing_member `{Platform} (f : ObjectFactory) (T : ObjectClass)
    (cls name fld : string) (ini : gmap string string) (w w1 : World) :
  mMakers f !! cls = Some (MakeObject T) ->
  make_instance T name w = (Ok tt, w1) ->
  is_Some (ini !! fld) ->
  TypeNames (objects w1) !! RegisterString cls name fld = None ->
  fields_ok (objects w1) cls name fld ini ->
  exists fld' w',
    Make f cls name ini w =
      (Throw (EMemberNotDefined fld' cls
                (ETypenameNotFound (RegisterString cls name fld'))), w') /\
    is_Some (ini !! fld') /\
    TypeNames (objects w1) !! RegisterString cls name fld' = None /\
    (forall g, is_Some (ini !! g) ->
       TypeNames (objects w1) !! RegisterString cls name g = None ->
       String.leb fld' g = true) /\
    TypeNames (objects w') = TypeNames (objects w1).
Proof.
  intros Hmaker Hinst [v Hfld] Hmissing Hok.
  set (P := fun nv : string * string =>
              TypeNames (objects w1) !! RegisterString cls name nv.1 = None).
  destruct (split_at_first P (std_map_items ini))
    as (pre & [fld' v'] & post & Hitems & Hpre & Hfld').
  { apply Exists_exists. exists (fld, v). split; [|exact Hmissing].
    apply elem_of_std_map_items. exact Hfld. }
  pose proof (std_map_items_sorted ini) as Hsorted.
  rewrite Hitems in Hsorted.
  assert (Hleast : forall g vg, (g, vg) ∈ std_map_items ini ->
            TypeNames (objects w1) !! RegisterString cls name g = None ->
            String.leb fld' g = true).
  { intros g vg Hg Hgmissing. rewrite Hitems in Hg.
    apply elem_of_app in Hg as [Hg|Hg].
    - exfalso. rewrite Forall_forall in Hpre. exact (Hpre _ Hg Hgmissing).
    - apply elem_of_cons in Hg as [[= <- <-]|Hg]; [apply leb_refl|].
      apply StronglySorted_app_1_r, StronglySorted_inv in Hsorted as [_ Hle].
      rewrite Forall_forall in Hle. exact (Hle _ Hg). }
  assert (Hbefore : forall nv, nv ∈ pre -> String.ltb nv.1 fld = true).
  { intros nv Hnv. apply (ltb_before nv.1 fld' fld).
    - apply (StronglySorted_app_1_elem_of _ _ _ nv (fld', v') Hsorted Hnv).
      apply elem_of_cons. left. reflexivity.
    - pose proof (NoDup_std_map_items ini) as Hnodup.
      rewrite Hitems, fmap_app in Hnodup.
      apply NoDup_app in Hnodup as (_ & Hdisj & _).
      intros Heq. apply (Hdisj nv.1).
      + apply list_elem_of_fmap. exists nv. split; [reflexivity|exact Hnv].
      + rewrite Heq. simpl. apply elem_of_cons. left. reflexivity.
    - apply (Hleast fld v); [|exact Hmissing].
      apply elem_of_std_map_items. exact Hfld. }
  destruct (for_each_set_field_registered cls name pre w1)
    as (wi & Hrun & Htn).
  { apply Forall_forall. intros nv Hnv.
    rewrite Forall_forall in Hpre. specialize (Hpre nv Hnv). unfold P in Hpre.
    assert (Hin : ini !! nv.1 = Some nv.2).
    { apply elem_of_std_map_items. rewrite Hitems. apply elem_of_app. left.
      destruct nv. exact Hnv. }
    pose proof (Hok nv.1 nv.2 Hin (Hbefore nv Hnv)) as Hreg.
    destruct (TypeNames (objects w1) !! RegisterString cls name nv.1)
      as [tn|]; [|contradiction].
    exists tn. split; [reflexivity|exact Hreg]. }
  exists fld', wi. split; [|split; [|split; [|split]]].
  - unfold Make. rewrite Hmaker, MakeObject_unfold. unfold bind at 1.
    rewrite Hinst, Hitems.
    apply (for_each_try_set_field_Throw cls name pre post (fld', v') w1 wi wi).
    + exact Hrun.
    + unfold set_field. apply SetString_missing. rewrite Htn. exact Hfld'.
  - exists v'. apply elem_of_std_map_items. rewrite Hitems.
    apply elem_of_app. right. apply elem_of_cons. left. reflexivity.
  - exact Hfld'.
  - intros g [vg Hg] Hgmissing.
    apply (Hleast g vg); [|exact Hgmissing].
    apply elem_of_std_map_items. exact Hg.
  - exact Htn.
Qed.

Lemma Make_missing_member_witness :
  exists fld' w',
    Make Sample.factory "Storage" "Lake"
      (<["Zeta" := "1"]> (<["EOL" := "5"]> (<["Height" := "2"]> ∅)))
      Sample.new_World =
      (Throw (EMemberNotDefined fld' "Storage"
                (ETypenameNotFound (RegisterString "Storage" "Lake" fld'))), w') /\
    String.leb fld' "Zeta" = true.
Proof.
  destruct (Make_missing_member Sample.factory Sample.Storage
              "Storage" "Lake" "Zeta"
              (<["Zeta" := "1"]> (<["EOL" := "5"]> (<["Height" := "2"]> ∅)))
              Sample.new_World Sample.Lake_made)
    as (fld' & w' & Hmake & Hin & _ & Hleast & _).
  - reflexivity.
  - unfold Sample.Lake_made, Sample.exec. apply run_outcome. vm_refl.
  - exists "1". vm_refl.
  - vm_refl.
  - apply (bool_decide_unpack _). vm_compute. exact I.
  - exists fld', w'. split; [exact Hmake|].
    apply Hleast; [exists "1"; vm_refl | vm_refl].
Defined.

(** C6 (as stated, refuted). The class [Storage] registers the members
    [EOL], [SpillOutlet] and [Sources], and no member [Alpha]: after the
    object [Lake] is made and registered, the key of [Alpha] is not in the
    type index. Yet [Make] with the field [Alpha] returns normally when the
    key was registered by somebody else beforehand, and dereferences a null
    register, where the claim has it throw, when [GetType] was asked for the
    key beforehand. And [Make] with a field of the empty name, which is no
    member either, returns normally: its key is the key of the instance. *)
Lemma Make_undeclared_field_counterexample :
  TypeNames (objects Sample.Lake_made) !! "Storage.Lake.Alpha" = None /\
  (bind (Set_ Sample.unsigned_ptr "Storage.Lake.Alpha" (Some 99%N) None)
     (fun _ => Make Sample.factory "Storage" "Lake" (<["Alpha" := "1"]> ∅))
     Sample.new_World).1 = Ok tt /\
  (bind (GetType "Storage.Lake.Alpha")
     (fun _ => Make Sample.factory "Storage" "Lake" (<["Alpha" := "1"]> ∅))
     Sample.new_World).1 = Undefined /\
  (Make Sample.factory "Storage" "Lake" (<[EmptyString := "Spillway"]> ∅)
     Sample.new_World).1 = Ok tt.
Proof.
  split; [vm_refl|]. split; [vm_refl|]. split; vm_refl.
Qed.

Section Committed.
Context `{Platform}.

Lemma RegisterString_third_inj (cls name g g' : string) :
  name <> EmptyString ->
  RegisterString cls name g = RegisterString cls name g' -> g = g'.
Proof.
  intros Hname. unfold RegisterString.
  apply String.eqb_neq in Hname. rewrite Hname.
  destruct (String.eqb_spec g EmptyString) as [->|Hg];
    destruct (String.eqb_spec g' EmptyString) as [->|Hg']; try reflexivity.
  - intros Heq. apply String.app_inj, String.app_inj in Heq.
    rewrite <- (append_nil_r name) in Heq at 1.
    apply String.app_inj in Heq. discriminate.
  - intros Heq. apply String.app_inj, String.app_inj in Heq.
    rewrite <- (append_nil_r name) in Heq at 2.
    apply String.app_inj in Heq. discriminate.
  - intros Heq. repeat apply String.app_inj in Heq. exact Heq.
Qed.

Lemma GetString_SetString_eq (k s : string) (w w' : World) :
  SetString k s w = (Ok tt, w') -> GetString k w' = (Ok s, w').
Proof.
  intros Hset. apply SetString_Ok in Hset as (tn & r & Hk & Hr & Ho & _).
  unfold GetString. unfold_monad. rewrite Ho. simpl. rewrite Hk.
  rewrite lookup_insert_eq. unfold Register_GetString. simpl.
  rewrite lookup_insert_eq. reflexivity.
Qed.

Lemma GetString_SetString_ne (k k' s : string) (w w' : World) :
  SetString k s w = (Ok tt, w') -> k' <> k ->
  GetString k' w' = ((GetString k' w).1, w').
Proof.
  intros Hset Hne. apply SetString_Ok in Hset as (tn & r & Hk & Hr & Ho & _).
  unfold GetString. unfold_monad. rewrite Ho. simpl.
  destruct (TypeNames (objects w) !! k') as [tn'|]; [|reflexivity].
  destruct (decide (tn = tn')) as [<-|Htn].
  - rewrite lookup_insert_eq, Hr. unfold Register_GetString. simpl.
    rewrite lookup_insert_ne by congruence. reflexivity.
  - rewrite lookup_insert_ne by assumption.
    destruct (Registers (objects w) !! tn'); reflexivity.
Qed.

(** The fields of [l] are set one after the other: afterwards each has its
    string, and the string of every other key is what it was. *)
Lemma for_each_set_field_strings (cls name : string) (l : list (string * string)) :
  name <> EmptyString -> NoDup l.*1 ->
  forall w w',
    for_each l (set_field cls name) w = (Ok tt, w') ->
    (forall g vg, (g, vg) ∈ l ->
       GetString (RegisterString cls name g) w' = (Ok vg, w')) /\
    (forall g, g ∉ l.*1 ->
       GetString (RegisterString cls name g) w' =
         ((GetString (RegisterString cls name g) w).1, w')).
Proof.
  intros Hname. induction l as [|[g0 v0] l IH]; intros Hnd w w' Hrun.
  - simpl in Hrun. injection Hrun as <-. split.
    + intros g vg Hin. inversion Hin.
    + intros g _. unfold GetString. unfold_monad.
      destruct (TypeNames (objects w) !! RegisterString cls name g) as [tn|];
        [|reflexivity].
      destruct (Registers (objects w) !! tn); reflexivity.
  - simpl in Hnd. apply NoDup_cons in Hnd as [Hg0 Hnd].
    simpl in Hrun. unfold bind in Hrun.
    destruct (set_field cls name (g0, v0) w) as [[[]| |] w0] eqn:Hset;
      try discriminate.
    unfold set_field in Hset. simpl in Hset.
    destruct (IH Hnd w0 w' Hrun) as [Hin Hout]. split.
    + intros g vg Hg. apply elem_of_cons in Hg as [[= -> ->]|Hg].
      * rewrite (Hout g0 Hg0).
        rewrite (GetString_SetString_eq _ _ _ _ Hset). reflexivity.
      * apply Hin. exact Hg.
    + intros g Hg. simpl in Hg. apply not_elem_of_cons in Hg as [Hne Hg].
      rewrite (Hout g Hg).
      rewrite (GetString_SetString_ne _ _ _ _ _ Hset); [reflexivity|].
      intros Heq. apply Hne.
      eapply RegisterString_third_inj; eassumption.
Qed.

End Committed.

(** C1 (as amended). [Make], for a class whose maker is [MakeObject<T>],
    sets the strings of the fields one after the other in the order in which
    the field mapping, a [std::map], is iterated: by ascending field name.
    When every field is set, [Make] returns normally in the state they leave.
    When setting a field throws, [Make] throws the wrapped exception in the
    state reached by setting the fields before it in this order: given an
    instance name that is not empty, each of these fields has its string
    registered, and each field after it has the string it had when the
    object was registered, if any. *)
Theorem Make_fields_in_key_order `{Platform} (f : ObjectFactory)
    (T : ObjectClass) (cls name : string) (ini : gmap string string)
    (w w1 : World) :
  mMakers f !! cls = Some (MakeObject T) ->
  make_instance T name w = (Ok tt, w1) ->
  StronglySorted key_le (std_map_items ini) /\
  NoDup (std_map_items ini).*1 /\
  (forall g vg, (g, vg) ∈ std_map_items ini <-> ini !! g = Some vg) /\
  (forall w2,
     for_each (std_map_items ini) (set_field cls name) w1 = (Ok tt, w2) ->
     Make f cls name ini w = (Ok tt, w2)) /\
  (forall pre nv post wi wi' e,
     std_map_items ini = (pre ++ nv :: post)%list ->
     for_each pre (set_field cls name) w1 = (Ok tt, wi) ->
     set_field cls name nv wi = (Throw e, wi') ->
     Make f cls name ini w = (Throw (EMemberNotDefined nv.1 cls e), wi) /\
     (name <> EmptyString ->
      (forall g vg, (g, vg) ∈ pre ->
         GetString (RegisterString cls name g) wi = (Ok vg, wi)) /\
      (forall g vg, (g, vg) ∈ nv :: post ->
         GetString (RegisterString cls name g) wi =
           ((GetString (RegisterString cls name g) w1).1, wi)))).
Proof.
  intros Hmaker Hinst.
  assert (Hmake : Make f cls name ini w =
            for_each (std_map_items ini) (try_set_field cls name) w1).
  { unfold Make. rewrite Hmaker, MakeObject_unfold. unfold bind at 1.
    rewrite Hinst. reflexivity. }
  split; [apply std_map_items_sorted|].
  split; [apply NoDup_std_map_items|].
  split; [intros g vg; apply elem_of_std_map_items|].
  split.
  - intros w2 Hrun. rewrite Hmake.
    apply for_each_try_set_field_Ok. exact Hrun.
  - intros pre nv post wi wi' e Hitems Hpre Hnv.
    destruct (SetString_Throw _ _ _ _ _ Hnv) as (_ & -> & _).
    split.
    + rewrite Hmake, Hitems.
      eapply for_each_try_set_field_Throw; eassumption.
    + intros Hname.
      pose proof (NoDup_std_map_items ini) as Hnd.
      rewrite Hitems, fmap_app in Hnd.
      apply NoDup_app in Hnd as (Hndpre & Hdisj & _).
      destruct (for_each_set_field_strings cls name pre Hname Hndpre w1 wi Hpre)
        as [Hin Hout].
      split; [exact Hin|].
      intros g vg Hg. apply Hout. intros Hgpre.
      apply (Hdisj g Hgpre).
      apply (list_elem_of_fmap_2 fst) in Hg. exact Hg.
Qed.

Lemma Make_fields_in_key_order_witness :
  Make Sample.factory "Storage" "Lake"
    (<["Zeta" := "1"]> (<["EOL" := "5"]> (<["Height" := "2"]> ∅)))
    Sample.new_World =
    (Throw (EMemberNotDefined "Height" "Storage"
              (ETypenameNotFound "Storage.Lake.Height")), Sample.EOL_set) /\
  GetString "Storage.Lake.EOL" Sample.EOL_set = (Ok "5", Sample.EOL_set).
Proof.
  set (ini := <["Zeta" := "1"]> (<["EOL" := "5"]> (<["Height" := "2"]> ∅))
              : gmap string string).
  destruct (Make_fields_in_key_order Sample.factory Sample.Storage
              "Storage" "Lake" ini Sample.new_World Sample.Lake_made)
    as (_ & _ & _ & _ & Hfail).
  - reflexivity.
  - unfold Sample.Lake_made, Sample.exec. apply run_outcome. vm_refl.
  - destruct (Hfail [("EOL", "5")] ("Height", "2") [("Zeta", "1")]
                Sample.EOL_set
                (Sample.exec (set_field "Storage" "Lake" ("Height", "2"))
                   Sample.EOL_set)
                (ETypenameNotFound "Storage.Lake.Height"))
      as [Hmake Hstrings].
    + vm_refl.
    + unfold Sample.EOL_set, Sample.exec. apply run_outcome. vm_refl.
    + unfold Sample.exec. apply run_outcome. vm_refl.
    + split; [exact Hmake|].
      destruct Hstrings as [Hin _]; [discriminate|].
      apply (Hin "EOL" "5"). apply elem_of_cons. left. reflexivity.
Defined.

(** C1 (as stated, refuted). A document that gives the field [EOL], which
    the class declares, before the field [Alpha], which it does not, is the
    same field mapping as the document that gives them the other way round.
    [Make] fails on [Alpha], first in the order of the keys, and [EOL], before
    it in the document, has not been set. *)
Lemma Make_document_order_counterexample :
  (list_to_map [("EOL", "5"); ("Alpha", "1")] : gmap string string) =
    list_to_map [("Alpha", "1"); ("EOL", "5")] /\
  Make Sample.factory "Storage" "Lake"
    (list_to_map [("EOL", "5"); ("Alpha", "1")]) Sample.new_World =
    (Throw (EMemberNotDefined "Alpha" "Storage"
              (ETypenameNotFound "Storage.Lake.Alpha")), Sample.Alpha_failed) /\
  HasKey "Storage.Lake.EOL" Sample.Alpha_failed
    = (Ok true, Sample.Alpha_failed) /\
  GetString "Storage.Lake.EOL" Sample.Alpha_failed =
    (Throw (EKeyNotFound "Storage.Lake.EOL"), Sample.Alpha_failed).
Proof.
  split.
  { rewrite !list_to_map_cons, list_to_map_nil. simpl.
    apply insert_insert_ne. discriminate. }
  split.
  { unfold Sample.Alpha_failed, Sample.exec. apply run_outcome. vm_refl. }
  split.
  - apply run_reader; [apply reads_HasKey|vm_refl].
  - apply run_reader; [apply reads_GetString|vm_refl].
Qed.

(** ** [Reset] *)

Section ResetLoops.
Context `{Platform}.

Lemma for_each_preserve {A : Type} (l : list A) (body : A -> M unit)
    (I : World -> Prop) (w w' : World) :
  (forall y w0 w0', y ∈ l -> I w0 -> body y w0 = (Ok tt, w0') -> I w0') ->
  I w -> for_each l body w = (Ok tt, w') -> I w'.
Proof.
  revert w w'. induction l as [|y l IH]; intros w w' Hstep HI Hrun;
    simpl in Hrun.
  - injection Hrun as <-. exact HI.
  - unfold bind in Hrun.
    destruct (body y w) as [[[]| |] w0] eqn:Hy; try discriminate.
    apply (IH w0 w'); [|exact (Hstep y w w0 (list_elem_of_here _ _) HI Hy)|exact Hrun].
    intros z w1 w1' Hz. apply Hstep. apply list_elem_of_further. exact Hz.
Qed.

Lemma for_each_establish {A : Type} (l : list A) (body : A -> M unit)
    (I Q : World -> Prop) (x : A) (w w' : World) :
  (forall y w0 w0', y ∈ l -> I w0 -> body y w0 = (Ok tt, w0') ->
     I w0' /\ (Q w0 -> Q w0')) ->
  (forall w0 w0', I w0 -> body x w0 = (Ok tt, w0') -> Q w0') ->
  x ∈ l ->
  I w -> for_each l body w = (Ok tt, w') -> Q w'.
Proof.
  intros Hstep Hx Hin HI Hrun.
  apply list_elem_of_split in Hin as (l1 & l2 & ->).
  rewrite for_each_app in Hrun. unfold bind in Hrun.
  destruct (for_each l1 body w) as [[[]| |] wm] eqn:H1; try discriminate.
  simpl in Hrun. unfold bind in Hrun.
  destruct (body x wm) as [[[]| |] wx] eqn:H2; try discriminate.
  assert (HIm : I wm).
  { apply (for_each_preserve l1 body I w wm); try assumption.
    intros y w0 w0' Hy HI0 Hbody.
    apply (Hstep y w0 w0'); try assumption.
    apply elem_of_app. left. exact Hy. }
  assert (HIx : I wx).
  { apply (Hstep x wm wx); try assumption.
    apply elem_of_app. right. apply list_elem_of_here. }
  assert (HQx : Q wx) by exact (Hx wm wx HIm H2).
  apply (for_each_preserve l2 body (fun w0 => I w0 /\ Q w0) wx w');
    [|split; assumption|exact Hrun].
  intros y w0 w0' Hy [HI0 HQ0] Hbody.
  destruct (Hstep y w0 w0') as [HI' HQ']; try assumption.
  { apply elem_of_app. right. apply list_elem_of_further. exact Hy. }
  split; [exact HI'|exact (HQ' HQ0)].
Qed.

Lemma push_all_Forall2 (t : ty) (toks : list string) :
  forall (vs acc : list val) (w : World),
    Forall2 (fun tok v => FromString t tok w = (Ok v, w)) toks vs ->
    push_all (FromString t) toks acc w = (Ok (acc ++ vs)%list, w).
Proof.
  induction toks as [|tok toks IH]; intros vs acc w Hvs.
  - apply Forall2_nil_inv_l in Hvs as ->. simpl. rewrite app_nil_r. reflexivity.
  - apply Forall2_cons_inv_l in Hvs as (v & vs' & Hv & Hvs & ->).
    simpl. unfold bind. rewrite Hv. rewrite (IH vs' _ w Hvs).
    rewrite <- app_assoc. reflexivity.
Qed.

(** When the loop of the [vector<T>*] overload returns normally, every token
    was converted. *)
Lemma vector_loop_inv (t : ty) (a : N) (toks : list string) :
  forall (w w' : World),
    for_each toks
      (fun tok => bind (FromString t tok) (fun temp => push_back (Some a) temp)) w
    = (Ok tt, w') ->
    exists vs, Forall2 (fun tok v => FromString t tok w = (Ok v, w)) toks vs.
Proof.
  induction toks as [|tok toks IH]; intros w w' Hrun.
  - exists []. constructor.
  - simpl in Hrun. unfold bind at 1 2 in Hrun.
    rewrite (FromString_same_world t tok w) in Hrun.
    destruct (FromString t tok w).1 as [v| |] eqn:Hv; try discriminate.
    simpl in Hrun.
    destruct (heap w !! a) as [[| | | |done]|] eqn:Ha; try discriminate.
    unfold set_heap in Hrun.
    destruct (IH _ _ Hrun) as (vs & Hvs).
    exists (v :: vs). constructor.
    + rewrite (FromString_same_world t tok w), Hv. reflexivity.
    + eapply Forall2_impl; [exact Hvs|]. intros tok' v' Hv'.
      simpl in Hv'. eapply FromString_frame; [|exact Hv']. reflexivity.
Qed.

Lemma ResetFromString_pointer_Ok (t : ty) (p : rval) (s : string) (w w' : World) :
  ResetFromString_pointer t p s w = (Ok tt, w') ->
  exists a v, p = Some a /\ FromString t s w = (Ok v, w) /\
    w' = with_heap w (<[a := v]> (heap w)).
Proof.
  intros Hrun. destruct p as [a|].
  - exists a.
    assert (Hscalar :
      bind (FromString t s) (fun v => store (Some a) v) w = (Ok tt, w') ->
      exists v, FromString t s w = (Ok v, w) /\
        w' = with_heap w (<[a := v]> (heap w))).
    { unfold bind. rewrite (FromString_same_world t s w).
      destruct (FromString t s w).1 as [v| |]; try discriminate.
      simpl. unfold set_heap. intros [= <-]. exists v. split; reflexivity. }
    destruct t as [n| | |cls|t']; try (destruct (Hscalar Hrun) as (v & ? & ?); eauto).
    clear Hscalar. unfold ResetFromString_pointer in Hrun.
    unfold bind at 1 in Hrun. simpl in Hrun. unfold set_heap in Hrun.
    set (w0 := with_heap w (<[a := VVector []]> (heap w))) in *.
    destruct (vector_loop_inv t' a _ _ _ Hrun) as (vs & Hvs).
    rewrite (vector_loop t' a _ vs [] w0) in Hrun;
      [|apply lookup_insert_eq|exact Hvs].
    injection Hrun as <-.
    exists (VVector vs). split; [reflexivity|]. split.
    + simpl. unfold bind.
      rewrite (push_all_Forall2 t' _ vs [] w); [reflexivity|].
      eapply Forall2_impl; [exact Hvs|]. intros tok' v' Hv'.
      simpl in Hv'. eapply FromString_frame; [|exact Hv']. reflexivity.
    + unfold w0, with_heap. simpl. rewrite insert_insert_eq. reflexivity.
  - exfalso.
    assert (Hscalar :
      bind (FromString t s) (fun v => store None v) w = (Ok tt, w') -> False).
    { unfold bind. rewrite (FromString_same_world t s w).
      destruct (FromString t s w).1; discriminate. }
    destruct t as [n| | |cls|t']; try exact (Hscalar Hrun).
    discriminate.
Qed.

Lemma Data_subscript_found (tn k : string) (r : Register) (p : rval)
    (w : World) :
  Registers (objects w) !! tn = Some r -> Data r !! k = Some p ->
  Data_subscript tn k w = (Ok p, w).
Proof.
  intros Hr Hp. unfold Data_subscript. unfold_monad. rewrite Hr.
  cbv beta iota. rewrite Hp. reflexivity.
Qed.

(** What a call of [ResetFromString] that returns normally has done. *)
Lemma ResetFromString_Ok (T : regty) (p : rval) (s : string) (w w' : World) :
  ResetFromString T p s w = (Ok tt, w') ->
  match T with
  | RPointer t =>
      exists a v, p = Some a /\ FromString t s w = (Ok v, w) /\
        w' = with_heap w (<[a := v]> (heap w))
  | _ => w' = w
  end.
Proof.
  destruct T as [t|cls|cls c]; simpl.
  - apply ResetFromString_pointer_Ok.
  - unfold bind.
    rewrite (reads_objects_self (FindInstance cls s) w (reads_Get _ _)).
    destruct (FindInstance cls s w).1; try discriminate.
    intros [= <-]. reflexivity.
  - intros [= <-]. reflexivity.
Qed.

End ResetLoops.

Section ResetEntry.
Context `{Platform}.
Variables (o1 : ObjectRegister) (wref : World).
Variables (a : N) (tn k s : string) (t : ty) (r1 : Register).
Hypothesis Hwref : objects wref = o1.
Hypothesis Hdata : data_ok o1.
Hypothesis Hsole : sole_target o1 a tn k.
Hypothesis Hr1 : Registers o1 !! tn = Some r1.
Hypothesis Helem : elem r1 = RPointer t.
Hypothesis Hval : Data r1 !! k = Some (Some a).
Hypothesis Hstr : StringData r1 !! k = Some s.

Local Abbreviation derived := (derived wref t s a).
Local Abbreviation same_objects := (same_objects o1).

Lemma reset_entry_step (tn' : string) (r' : Register) (k' s' : string)
    (w w' : World) :
  Registers o1 !! tn' = Some r' ->
  StringData r' !! k' = Some s' ->
  same_objects w ->
  reset_entry tn' (elem r') (k', s') w = (Ok tt, w') ->
  same_objects w' /\ (derived w -> derived w') /\
  (tn' = tn -> k' = k -> derived w').
Proof.
  unfold same_objects. intros Hr' Hs' Hw Hrun.
  destruct (Hdata tn' r' Hr' k' s' Hs') as [p Hp].
  unfold reset_entry, bind in Hrun. simpl in Hrun.
  rewrite (Data_subscript_found tn' k' r' p w) in Hrun;
    [|rewrite Hw; exact Hr'|exact Hp].
  apply ResetFromString_Ok in Hrun.
  destruct (elem r') as [t'|cls|cls c] eqn:Het.
  - destruct Hrun as (a' & v' & -> & Hv' & ->). simpl.
    split; [exact Hw|].
    destruct (decide (a' = a)) as [->|Hne].
    + assert (Hptr : is_pointer (elem r') = true) by (rewrite Het; reflexivity).
      destruct (Hsole tn' r' Hr' Hptr k' s' Hs' Hp) as [-> ->].
      assert (r' = r1) by congruence. subst r'.
      assert (t' = t) by congruence. subst t'.
      assert (s' = s) by congruence. subst s'.
      assert (Hd : derived (with_heap w (<[a := v']> (heap w)))).
      { exists v'. split; [|apply lookup_insert_eq].
        apply (FromString_frame t s (Ok v') w wref); [congruence|exact Hv']. }
      split; intros; exact Hd.
    + split.
      * intros (v & Hv & Ha). exists v. split; [exact Hv|].
        simpl. rewrite lookup_insert_ne by assumption. exact Ha.
      * intros -> ->. exfalso. apply Hne.
        assert (r' = r1) by congruence. subst r'. congruence.
  - subst w'. split; [exact Hw|]. split; [trivial|].
    intros -> _. exfalso.
    assert (r' = r1) by congruence. subst r'. congruence.
  - subst w'. split; [exact Hw|]. split; [trivial|].
    intros -> _. exfalso.
    assert (r' = r1) by congruence. subst r'. congruence.
Qed.

Lemma Register_Reset_unfold (tn' : string) (r' : Register) (w : World) :
  same_objects w -> Registers o1 !! tn' = Some r' ->
  Register_Reset tn' w =
  for_each (std_map_items (StringData r')) (reset_entry tn' (elem r')) w.
Proof.
  unfold same_objects. intros Hw Hr'.
  unfold Register_Reset, bind at 1, get_objects. rewrite Hw, Hr'. reflexivity.
Qed.

Lemma Register_Reset_step (tn' : string) (r' : Register) (w w' : World) :
  Registers o1 !! tn' = Some r' ->
  same_objects w ->
  Register_Reset tn' w = (Ok tt, w') ->
  same_objects w' /\ (derived w -> derived w') /\ (tn' = tn -> derived w').
Proof.
  intros Hr' Hw Hrun.
  rewrite (Register_Reset_unfold tn' r' w Hw Hr') in Hrun.
  assert (Hstep : forall y w0 w0',
    y ∈ std_map_items (StringData r') -> same_objects w0 ->
    reset_entry tn' (elem r') y w0 = (Ok tt, w0') ->
    same_objects w0' /\ (derived w0 -> derived w0') /\
    (tn' = tn -> y.1 = k -> derived w0')).
  { intros [k' s'] w0 w0' Hy Hw0 Hbody.
    apply elem_of_std_map_items in Hy.
    exact (reset_entry_step tn' r' k' s' w0 w0' Hr' Hy Hw0 Hbody). }
  split; [|split].
  - apply (for_each_preserve _ _ same_objects) with (w := w) in Hrun;
      [exact Hrun| |exact Hw].
    intros y w0 w0' Hy Hw0 Hbody. apply (Hstep y w0 w0' Hy Hw0 Hbody).
  - intros Hd.
    apply (for_each_preserve _ _ (fun w0 => same_objects w0 /\ derived w0))
      with (w := w) in Hrun; [apply Hrun| |split; assumption].
    intros y w0 w0' Hy [Hw0 Hd0] Hbody.
    destruct (Hstep y w0 w0' Hy Hw0 Hbody) as (? & Hpres & _).
    split; [assumption|exact (Hpres Hd0)].
  - intros ->. assert (r' = r1) by congruence. subst r'.
    apply (for_each_establish _ _ same_objects derived (k, s))
      with (w := w) in Hrun; [exact Hrun| | | |exact Hw].
    + intros y w0 w0' Hy Hw0 Hbody.
      destruct (Hstep y w0 w0' Hy Hw0 Hbody) as (? & ? & _). split; assumption.
    + intros w0 w0' Hw0 Hbody.
      exact (proj2 (proj2 (reset_entry_step tn r1 k s w0 w0' Hr1 Hstr Hw0 Hbody))
               eq_refl eq_refl).
    + apply elem_of_std_map_items. exact Hstr.
Qed.

Lemma Reset_derives (w w' : World) :
  same_objects w ->
  Reset_ w = (Ok tt, w') ->
  same_objects w' /\ derived w'.
Proof.
  intros Hw Hrun. unfold Reset_, bind at 1, get_objects in Hrun.
  unfold same_objects in Hw. rewrite Hw in Hrun.
  assert (Hstep : forall y w0 w0',
    y ∈ std_map_items (Registers o1) -> same_objects w0 ->
    Register_Reset y.1 w0 = (Ok tt, w0') ->
    same_objects w0' /\ (derived w0 -> derived w0') /\
    (y.1 = tn -> derived w0')).
  { intros [tn' r'] w0 w0' Hy Hw0 Hbody.
    apply elem_of_std_map_items in Hy.
    exact (Register_Reset_step tn' r' w0 w0' Hy Hw0 Hbody). }
  split.
  - apply (for_each_preserve _ _ same_objects) with (w := w) in Hrun;
      [exact Hrun| |exact Hw].
    intros y w0 w0' Hy Hw0 Hbody. apply (Hstep y w0 w0' Hy Hw0 Hbody).
  - apply (for_each_establish _ _ same_objects derived (tn, r1))
      with (w := w) in Hrun; [exact Hrun| | | |exact Hw].
    + intros y w0 w0' Hy Hw0 Hbody.
      destruct (Hstep y w0 w0' Hy Hw0 Hbody) as (? & ? & _). split; assumption.
    + intros w0 w0' Hw0 Hbody.
      exact (proj2 (proj2 (Register_Reset_step tn r1 w0 w0' Hr1 Hw0 Hbody))
               eq_refl).
    + apply elem_of_std_map_items. exact Hr1.
Qed.

End ResetEntry.

(** C2 (as amended). Let [k] be registered as a pointer to a variable of
    type [U], at the address [a], in an object register where every
    remembered string has its value, and let no other pointer with a
    remembered string point to [a]. If [SetString(k, s)] followed by
    [Reset()] returns normally, then [Reset] has left the object register as
    [SetString] left it, [Get<U*>(k)] returns the address [a], and the
    variable at [a] holds the value that converting [s] to [U] gives in that
    object register. *)
Theorem SetString_Reset_Get `{Platform} (t : ty) (k s : string) (a : N)
    (r : Register) (w w2 : World) :
  TypeNames (objects w) !! k = Some (type_name (RPointer t)) ->
  Registers (objects w) !! type_name (RPointer t) = Some r ->
  elem r = RPointer t ->
  Data r !! k = Some (Some a) ->
  data_ok (objects w) ->
  sole_target (objects w) a (type_name (RPointer t)) k ->
  bind (SetString k s) (fun _ => Reset_) w = (Ok tt, w2) ->
  exists w1 v,
    SetString k s w = (Ok tt, w1) /\
    Reset_ w1 = (Ok tt, w2) /\
    objects w2 = objects w1 /\
    Get (RPointer t) k w2 = (Ok (Some a), w2) /\
    FromString t s w2 = (Ok v, w2) /\
    heap w2 !! a = Some v.
Proof.
  set (tn := type_name (RPointer t)).
  intros Hk Hr Helem Hval Hdata Hsole Hrun.
  unfold bind in Hrun.
  destruct (SetString k s w) as [[[]| |] w1] eqn:Hset; try discriminate.
  destruct (SetString_Ok _ _ _ _ Hset) as (tn0 & r0 & Hk0 & Hr0 & Ho1 & _).
  assert (tn0 = tn) by congruence. subst tn0.
  assert (r0 = r) by congruence. subst r0.
  set (r1 := Register_SetString r k s) in *.
  assert (Hr1 : Registers (objects w1) !! tn = Some r1).
  { rewrite Ho1. simpl. apply lookup_insert_eq. }
  assert (Hother : forall tn' r', tn' <> tn ->
            Registers (objects w1) !! tn' = Some r' ->
            Registers (objects w) !! tn' = Some r').
  { intros tn' r' Hne. rewrite Ho1. simpl.
    rewrite lookup_insert_ne by congruence. trivial. }
  assert (Hdata1 : data_ok (objects w1)).
  { intros tn' r' Hr' k' s' Hs'.
    destruct (decide (tn' = tn)) as [->|Hne].
    - assert (r' = r1) by congruence. subst r'. unfold r1 in *. simpl in *.
      destruct (decide (k' = k)) as [->|Hkne]; [eauto|].
      rewrite lookup_insert_ne in Hs' by congruence.
      exact (Hdata tn r Hr k' s' Hs').
    - exact (Hdata tn' r' (Hother tn' r' Hne Hr') k' s' Hs'). }
  assert (Hsole1 : sole_target (objects w1) a tn k).
  { intros tn' r' Hr' Hptr k' s' Hs' Hp.
    destruct (decide (tn' = tn)) as [->|Hne].
    - assert (r' = r1) by congruence. subst r'. unfold r1 in *. simpl in *.
      destruct (decide (k' = k)) as [->|Hkne]; [split; reflexivity|].
      rewrite lookup_insert_ne in Hs' by congruence.
      exact (Hsole tn r Hr Hptr k' s' Hs' Hp).
    - exact (Hsole tn' r' (Hother tn' r' Hne Hr') Hptr k' s' Hs' Hp). }
  destruct (Reset_derives (objects w1) w1 a tn k s t r1 eq_refl Hdata1 Hsole1
              Hr1 Helem Hval (lookup_insert_eq _ _ _) w1 w2 eq_refl Hrun)
    as [Ho2 (v & Hv & Ha)].
  unfold same_objects in Ho2.
  exists w1, v. split; [reflexivity|]. split; [exact Hrun|].
  split; [exact Ho2|]. split; [|split].
  - unfold Get. unfold_monad. rewrite Ho2. fold tn. rewrite Hr1.
    unfold Register_Get. simpl. rewrite Hval. reflexivity.
  - apply (FromString_frame t s (Ok v) w1 w2 Ho2 Hv).
  - exact Ha.
Qed.

Lemma SetString_Reset_Get_witness :
  bind (SetString "Storage.Lake.EOL" "77") (fun _ => Reset_) Sample.Lake
    = (Ok tt, Sample.Lake_reset) /\
  Get Sample.unsigned_ptr "Storage.Lake.EOL" Sample.Lake_reset
    = (Ok (Some 8%N), Sample.Lake_reset) /\
  heap Sample.Lake_reset !! 8%N = Some (Sample.number 77).
Proof.
  assert (Hr : is_Some (Registers (objects Sample.Lake) !! "unsigned *")).
  { apply (bool_decide_unpack _). vm_compute. exact I. }
  destruct Hr as [r Hr].
  assert (Helem : elem <$> Registers (objects Sample.Lake) !! "unsigned *"
                  = Some Sample.unsigned_ptr) by vm_refl.
  assert (Hdata : (Registers (objects Sample.Lake) !! "unsigned *")
                    ≫= (fun r => Data r !! "Storage.Lake.EOL")
                  = Some (Some 8%N)) by vm_refl.
  rewrite Hr in Helem, Hdata. simpl in Helem, Hdata.
  injection Helem as Helem.
  destruct (SetString_Reset_Get (TLexical "unsigned") "Storage.Lake.EOL" "77"
              8%N r Sample.Lake Sample.Lake_reset)
    as (w1 & v & _ & _ & _ & Hget & Hconv & Hheap).
  - vm_refl.
  - exact Hr.
  - exact Helem.
  - exact Hdata.
  - apply (bool_decide_unpack _). vm_compute. exact I.
  - apply (bool_decide_unpack _). vm_compute. exact I.
  - unfold Sample.Lake_reset, Sample.exec. apply run_outcome. vm_refl.
  - split.
    { unfold Sample.Lake_reset, Sample.exec. apply run_outcome. vm_refl. }
    split; [exact Hget|].
    rewrite Hheap. f_equal.
    assert (Hv : (FromString (TLexical "unsigned") "77" Sample.Lake_reset).1
                 = Ok (Sample.number 77)) by vm_refl.
    rewrite Hconv in Hv. injection Hv as ->. reflexivity.
Defined.

(** C2 (as stated, refuted). The instance [Storage.Lake] is held by value,
    as a [boost::shared_ptr]. After [SetString("Storage.Lake", "Spillway")]
    and [Reset()], which returns normally, [Get] returns the object 1 for
    this key, as before, where the string converts to the object 2, the
    instance named [Spillway]: [Reset] has looked the instance up into its
    own copy of the value. *)
Lemma SetString_Reset_Get_by_value_counterexample :
  bind (SetString "Storage.Lake" "Spillway") (fun _ => Reset_) Sample.Two
    = (Ok tt, Sample.Two_reset) /\
  Get (RShared "Storage") "Storage.Lake" Sample.Two
    = (Ok (Some 1%N), Sample.Two) /\
  Get (RShared "Storage") "Storage.Lake" Sample.Two_reset
    = (Ok (Some 1%N), Sample.Two_reset) /\
  FromString (TShared "Storage") "Spillway" Sample.Two_reset
    = (Ok (VShared (Some 2%N)), Sample.Two_reset) /\
  Some 1%N <> Some 2%N.
Proof.
  split.
  { unfold Sample.Two_reset, Sample.exec. apply run_outcome. vm_refl. }
  split; [apply run_reader; [apply reads_Get|vm_refl]|].
  split; [apply run_reader; [apply reads_Get|vm_refl]|].
  split; [apply run_reader; [apply reads_FromString|vm_refl]|discriminate].
Qed.

(* ================================================================== *)
(** * Further properties of the register strings *)

Section RegisterStrings.

Lemma dot_free_cons (c : ascii) (s : string) :
  dot_free (String c s) = true <-> c <> "."%char /\ dot_free s = true.
Proof.
  unfold dot_free, gRegStringSeps. simpl.
  destruct (Ascii.eqb_spec c "."%char) as [->|Hne]; simpl.
  - split; [discriminate|]. intros [Hc _]. contradiction.
  - split; [intros Hs; split; assumption|]. intros [_ Hs]. exact Hs.
Qed.

Lemma append_dot (x : string) : ("." ++ x)%string = String "."%char x.
Proof. reflexivity. Qed.

Lemma append_nil_l (x : string) : (EmptyString ++ x)%string = x.
Proof. reflexivity. Qed.

(** A string is cut at its first separator in one way only. *)
Lemma split_first_dot (a a' x x' : string) :
  dot_free a = true -> dot_free a' = true ->
  (a ++ "." ++ x = a' ++ "." ++ x')%string -> a = a' /\ x = x'.
Proof.
  rewrite !append_dot.
  revert a'. induction a as [|c a IH]; intros [|c' a'] Ha Ha' Heq;
    rewrite ?append_nil_l, ?append_cons in Heq.
  - injection Heq as ->. split; reflexivity.
  - apply dot_free_cons in Ha' as [Hc' _].
    injection Heq as <- _. contradiction.
  - apply dot_free_cons in Ha as [Hc _].
    injection Heq as -> _. contradiction.
  - apply dot_free_cons in Ha as [_ Ha]. apply dot_free_cons in Ha' as [_ Ha'].
    injection Heq as -> Heq.
    destruct (IH a' Ha Ha' Heq) as [-> ->]. split; reflexivity.
Qed.

Lemma dot_free_no_dot (s x y : string) :
  dot_free s = true -> s <> (x ++ "." ++ y)%string.
Proof.
  rewrite append_dot.
  revert x. induction s as [|c s IH]; intros [|cx x] Hs Heq;
    rewrite ?append_nil_l, ?append_cons in Heq.
  - discriminate.
  - discriminate.
  - apply dot_free_cons in Hs as [Hc _]. injection Heq as -> _. contradiction.
  - apply dot_free_cons in Hs as [_ Hs].
    injection Heq as _ Heq. exact (IH x Hs Heq).
Qed.

Lemma RegisterString_second (a b c : string) :
  b <> EmptyString ->
  RegisterString a b c =
  (a ++ "." ++ (if String.eqb c EmptyString then b else b ++ "." ++ c))%string.
Proof.
  intros Hb. unfold RegisterString, gRegStringSeps.
  apply String.eqb_neq in Hb. rewrite Hb.
  destruct (String.eqb c EmptyString); reflexivity.
Qed.

End RegisterStrings.

Lemma RegisterString_components (c n f c' n' f' : string) :
  dot_free c = true -> dot_free c' = true ->
  dot_free n = true -> dot_free n' = true ->
  n <> EmptyString -> n' <> EmptyString ->
  RegisterString c n f = RegisterString c' n' f' ->
  c = c' /\ n = n' /\ f = f'.
Proof.
  intros Hc Hc' Hn Hn' Hne Hne' Heq.
  rewrite !RegisterString_second in Heq by assumption.
  apply split_first_dot in Heq as [-> Heq]; try assumption.
  split; [reflexivity|].
  destruct (String.eqb_spec f EmptyString) as [->|Hf];
    destruct (String.eqb_spec f' EmptyString) as [->|Hf'].
  - split; [exact Heq|reflexivity].
  - exfalso. exact (dot_free_no_dot n n' f' Hn Heq).
  - exfalso. symmetry in Heq. exact (dot_free_no_dot n' n f Hn' Heq).
  - apply split_first_dot in Heq as [-> ->]; try assumption.
    split; reflexivity.
Qed.

(** X1. A register string names its components: when the class names have
    no separator in them and the instance names are not empty and have none
    either, two register strings are equal only if they are built from the
    same class name, the same instance name and the same member name (the
    empty member name standing for the key of the instance itself). *)
Theorem RegisterString_inj (c n f c' n' f' : string) :
  dot_free c = true -> dot_free c' = true ->
  dot_free n = true -> dot_free n' = true ->
  n <> EmptyString -> n' <> EmptyString ->
  RegisterString c n f = RegisterString c' n' f' ->
  c = c' /\ n = n' /\ f = f'.
Proof. apply RegisterString_components. Qed.

Lemma RegisterString_inj_witness :
  "Storage" = "Storage" /\ "Lake" = "Lake" /\ "EOL" = "EOL".
Proof.
  apply (RegisterString_inj "Storage" "Lake" "EOL" "Storage" "Lake" "EOL");
    try reflexivity; discriminate.
Defined.

Section ValidNames.

Lemma valid_char_not_delim (seps : string) (c : ascii) :
  (forall d, is_delim seps d = true -> isalnum d = false /\ d <> "_"%char) ->
  negb (isalnum c) && negb (Ascii.eqb c "_") = false ->
  is_delim seps c = false.
Proof.
  intros Hseps Hc. destruct (is_delim seps c) eqn:Hd; [|reflexivity].
  destruct (Hseps c Hd) as [Hal Hu]. rewrite Hal in Hc. simpl in Hc.
  apply Ascii.eqb_neq in Hu. rewrite Hu in Hc. discriminate.
Qed.

Lemma valid_tail_delim_free (seps s : string) :
  (forall d, is_delim seps d = true -> isalnum d = false /\ d <> "_"%char) ->
  valid_tail s = true -> delim_free seps s = true.
Proof.
  intros Hseps. induction s as [|c s IH]; simpl; [reflexivity|].
  destruct (negb (isalnum c) && negb (Ascii.eqb c "_")) eqn:Hc; [discriminate|].
  intros Hs. rewrite (valid_char_not_delim seps c Hseps Hc). simpl.
  exact (IH Hs).
Qed.

Lemma valid_name_delim_free (seps s : string) :
  (forall d, is_delim seps d = true -> isalnum d = false /\ d <> "_"%char) ->
  IsValidVariableName s = true -> delim_free seps s = true.
Proof.
  intros Hseps. destruct s as [|c s]; simpl; [discriminate|].
  destruct (isalpha c) eqn:Hc; simpl; [|discriminate].
  intros Hs.
  assert (Hnd : negb (isalnum c) && negb (Ascii.eqb c "_") = false).
  { unfold isalnum. rewrite Hc. reflexivity. }
  rewrite (valid_char_not_delim seps c Hseps Hnd). simpl.
  apply valid_tail_delim_free; assumption.
Qed.

Lemma dot_is_no_name_char (d : ascii) :
  is_delim gRegStringSeps d = true -> isalnum d = false /\ d <> "_"%char.
Proof.
  unfold gRegStringSeps. simpl.
  destruct (Ascii.eqb_spec d "."%char) as [->|]; [|discriminate].
  intros _. split; [reflexivity|discriminate].
Qed.

End ValidNames.

(** X2. A name that [IsValidVariableName] accepts is not empty and has no
    separator of the register strings in it; and a tokenizer whose
    separators are neither letters, digits nor underscores reads it as one
    token, itself. *)
Theorem IsValidVariableName_sound (s : string) :
  IsValidVariableName s = true ->
  s <> EmptyString /\ dot_free s = true /\
  (forall seps,
     (forall d, is_delim seps d = true -> isalnum d = false /\ d <> "_"%char) ->
     tokenizer seps s = [s]).
Proof.
  intros Hs. split; [|split].
  - intros ->. discriminate.
  - apply valid_name_delim_free; [exact dot_is_no_name_char|exact Hs].
  - intros seps Hseps. unfold tokenizer.
    rewrite <- (append_nil_r s) at 1.
    rewrite tokens_from_token by (apply valid_name_delim_free; assumption).
    rewrite append_nil_l. simpl.
    destruct (String.eqb_spec s EmptyString) as [->|]; [discriminate|reflexivity].
Qed.

Lemma IsValidVariableName_sound_witness :
  "Great_Lake" <> EmptyString /\ dot_free "Great_Lake" = true /\
  tokenizer "[], " "Great_Lake" = ["Great_Lake"].
Proof.
  destruct (IsValidVariableName_sound "Great_Lake") as (Hne & Hdot & Htok).
  - reflexivity.
  - split; [exact Hne|]. split; [exact Hdot|].
    apply Htok. intros d Hd. simpl in Hd.
    repeat match type of Hd with
           | context [Ascii.eqb d ?c] =>
               destruct (Ascii.eqb_spec d c) as [?|?]
           end; simpl in Hd; try discriminate Hd; subst d; (split; [reflexivity|discriminate]).
Defined.

(** X3. Register strings built from names that [IsValidVariableName]
    accepts as class and instance names are equal only if they are built from
    the same names. *)
Theorem valid_names_unique_keys (c n f c' n' f' : string) :
  IsValidVariableName c = true -> IsValidVariableName c' = true ->
  IsValidVariableName n = true -> IsValidVariableName n' = true ->
  RegisterString c n f = RegisterString c' n' f' ->
  c = c' /\ n = n' /\ f = f'.
Proof.
  intros Hc Hc' Hn Hn'.
  apply RegisterString_components;
    try (apply valid_name_delim_free; [exact dot_is_no_name_char|assumption]);
    intros ->; discriminate.
Qed.

Lemma valid_names_unique_keys_witness :
  "Storage" = "Storage" /\ "Great_Lake" = "Great_Lake" /\ "EOL" = "EOL".
Proof.
  apply (valid_names_unique_keys "Storage" "Great_Lake" "EOL"
           "Storage" "Great_Lake" "EOL"); reflexivity.
Defined.

Section Reserved.

Lemma reserved_inj (p n n' : string) :
  dot_free p = true ->
  RegisterString p n EmptyString = RegisterString p n' EmptyString -> n = n'.
Proof.
  intros Hp. unfold RegisterString, gRegStringSeps.
  destruct (String.eqb_spec n EmptyString) as [->|Hn];
    destruct (String.eqb_spec n' EmptyString) as [->|Hn']; simpl.
  - reflexivity.
  - intros Heq. exfalso. exact (dot_free_no_dot p p n' Hp Heq).
  - intros Heq. exfalso. symmetry in Heq. exact (dot_free_no_dot p p n Hp Heq).
  - intros Heq. apply String.app_inj, String.app_inj in Heq. exact Heq.
Qed.

(** Register strings whose first components differ are different. *)
Lemma first_component_differs (p q n f n' f' : string) :
  dot_free p = true -> dot_free q = true -> p <> q ->
  RegisterString p n f <> RegisterString q n' f'.
Proof.
  intros Hp Hq Hpq Heq.
  destruct (String.eqb_spec n EmptyString) as [->|Hn];
    destruct (String.eqb_spec n' EmptyString) as [->|Hn'].
  - exact (Hpq Heq).
  - rewrite (RegisterString_second q n' f' Hn') in Heq.
    exact (dot_free_no_dot p q _ Hp Heq).
  - rewrite (RegisterString_second p n f Hn) in Heq. symmetry in Heq.
    exact (dot_free_no_dot q p _ Hq Heq).
  - rewrite (RegisterString_second p n f Hn),
      (RegisterString_second q n' f' Hn') in Heq.
    apply split_first_dot in Heq as [Heq _]; try assumption.
    exact (Hpq Heq).
Qed.

End Reserved.

(** X4. The register strings of functions, files and collections: each of
    the three constructions gives different strings for different names; no
    string of one is a string of another; and none is the register string of
    an instance or member of a class whose name has no separator in it and is
    not the reserved word. *)
Theorem reserved_register_strings :
  (forall n n', FunctionRegisterString n = FunctionRegisterString n' -> n = n') /\
  (forall n n', FileRegisterString n = FileRegisterString n' -> n = n') /\
  (forall n n',
     CollectionRegisterString n = CollectionRegisterString n' -> n = n') /\
  (forall n n', FunctionRegisterString n <> FileRegisterString n') /\
  (forall n n', FunctionRegisterString n <> CollectionRegisterString n') /\
  (forall n n', FileRegisterString n <> CollectionRegisterString n') /\
  (forall c n f x, dot_free c = true ->
     (c <> gRegStringFunction -> RegisterString c n f <> FunctionRegisterString x) /\
     (c <> gRegStringFile -> RegisterString c n f <> FileRegisterString x) /\
     (c <> gRegStringCollection ->
      RegisterString c n f <> CollectionRegisterString x)).
Proof.
  unfold FunctionRegisterString, FileRegisterString, CollectionRegisterString.
  repeat split.
  - intros n n'. apply reserved_inj. reflexivity.
  - intros n n'. apply reserved_inj. reflexivity.
  - intros n n'. apply reserved_inj. reflexivity.
  - intros n n'. apply first_component_differs; try reflexivity. discriminate.
  - intros n n'. apply first_component_differs; try reflexivity. discriminate.
  - intros n n'. apply first_component_differs; try reflexivity. discriminate.
  - intros Hne. apply first_component_differs; try assumption. reflexivity.
  - intros Hne. apply first_component_differs; try assumption. reflexivity.
  - intros Hne. apply first_component_differs; try assumption. reflexivity.
Qed.

(* ================================================================== *)
(** * Further properties of the object register *)

Lemma Set_then `{Platform} (T : regty) (k : string) (v : rval)
    (d : option string) (w : World) :
  let w' := (Set_ T k v d w).2 in
  Set_ T k v d w = (Ok tt, w') /\
  Get T k w' = (Ok v, w') /\
  HasKey k w' = (Ok true, w') /\
  GetType k w' = (Ok (type_name T), w') /\
  (forall k' v', k' <> k -> Get T k' w = (Ok v', w) ->
     Get T k' w' = (Ok v', w')) /\
  (forall T' k', type_name T' <> type_name T ->
     Get T' k' w' = ((Get T' k' w).1, w')).
Proof.
  unfold Set_, Get, HasKey, GetType, Register_Get. unfold_monad. simpl.
  rewrite !lookup_insert_eq.
  split; [reflexivity|].
  split; [destruct d; simpl; rewrite lookup_insert_eq; reflexivity|].
  split; [reflexivity|]. split; [reflexivity|]. split.
  - intros k' v' Hk'.
    destruct (Registers (objects w) !! type_name T) as [r|]; [|discriminate].
    destruct (Data r !! k') as [v0|] eqn:Hv0; [|discriminate].
    intros [= <-].
    destruct d; simpl; rewrite lookup_insert_ne by congruence;
      rewrite Hv0; reflexivity.
  - intros T' k' Hne. rewrite lookup_insert_ne by congruence.
    destruct (Registers (objects w) !! type_name T'); reflexivity.
Qed.

(** X5. A value stored with [Set<T>] is the value [Get<T>] returns for the
    key; the key is then known to [HasKey], and [GetType] returns the type
    name of [T] for it without changing anything. A value that [Get<T>]
    returned for another key is still returned, and [Get] for the types with
    another type name returns or throws what it did. *)
Theorem Set_Get `{Platform} (T : regty) (k : string) (v : rval)
    (d : option string) (w : World) :
  let w' := (Set_ T k v d w).2 in
  Set_ T k v d w = (Ok tt, w') /\
  Get T k w' = (Ok v, w') /\
  HasKey k w' = (Ok true, w') /\
  GetType k w' = (Ok (type_name T), w') /\
  (forall k' v', k' <> k -> Get T k' w = (Ok v', w) ->
     Get T k' w' = (Ok v', w')) /\
  (forall T' k', type_name T' <> type_name T ->
     Get T' k' w' = ((Get T' k' w).1, w')).
Proof. exact (Set_then T k v d w). Qed.

(** X6. The remembered string after [Set<T>]. With a default value, the
    default is the string [GetString] returns. Without one, the string which
    the type register of [T] remembered for the key stays: [GetString]
    returns it if there was one, and throws "Couldn't find key", although
    the key is registered, if there was none. *)
Theorem Set_GetString `{Platform} (T : regty) (k : string) (v : rval)
    (w : World) :
  (forall d, let w' := (Set_ T k v (Some d) w).2 in
     GetString k w' = (Ok d, w')) /\
  (let w' := (Set_ T k v None w).2 in
   GetString k w' =
     (match Registers (objects w) !! type_name T with
      | Some r => Register_GetString r k
      | None => Throw (EKeyNotFound k)
      end, w')).
Proof.
  unfold Set_, GetString, Register_GetString. unfold_monad. simpl. split.
  - intros d. simpl. rewrite !lookup_insert_eq. simpl.
    rewrite lookup_insert_eq. reflexivity.
  - rewrite !lookup_insert_eq.
    destruct (Registers (objects w) !! type_name T) as [r|]; simpl.
    + reflexivity.
    + rewrite lookup_empty. reflexivity.
Qed.

(** X7. [SetString], when it returns normally, changes the remembered
    string of its key and nothing else: [GetString] returns the new string
    for the key and what it returned or threw before for every other key,
    [Get] returns or throws what it did for every type and key, and the type
    index and the variables are as they were. A second [SetString] for the
    key returns normally too, and its string is the one remembered. *)
Theorem SetString_GetString `{Platform} (k s : string) (w w' : World) :
  SetString k s w = (Ok tt, w') ->
  GetString k w' = (Ok s, w') /\
  (forall k', k' <> k -> GetString k' w' = ((GetString k' w).1, w')) /\
  (forall T k', Get T k' w' = ((Get T k' w).1, w')) /\
  TypeNames (objects w') = TypeNames (objects w) /\
  heap w' = heap w /\
  (forall s2, exists w'',
     SetString k s2 w' = (Ok tt, w'') /\ GetString k w'' = (Ok s2, w'')).
Proof.
  intros Hset.
  split; [exact (GetString_SetString_eq k s w w' Hset)|].
  split; [intros k' Hk'; exact (GetString_SetString_ne k k' s w w' Hset Hk')|].
  destruct (SetString_Ok k s w w' Hset) as (tn & r & Hk & Hr & Ho & Hh & _).
  split; [|split; [|split]].
  - intros T k'. unfold Get. unfold_monad. rewrite Ho. simpl.
    destruct (decide (tn = type_name T)) as [<-|Hne].
    + rewrite lookup_insert_eq, Hr. reflexivity.
    + rewrite lookup_insert_ne by assumption.
      destruct (Registers (objects w) !! type_name T); reflexivity.
  - rewrite Ho. reflexivity.
  - exact Hh.
  - intros s2.
    assert (Hset2 : SetString k s2 w' =
                    (Ok tt, (SetString k s2 w').2)).
    { apply run_outcome. unfold SetString. unfold_monad. rewrite Ho. simpl.
      rewrite Hk, lookup_insert_eq. reflexivity. }
    eexists. split; [exact Hset2|].
    exact (GetString_SetString_eq k s2 _ _ Hset2).
Qed.

Lemma SetString_GetString_witness :
  let w' := Sample.exec (SetString "Storage.Lake.EOL" "77") Sample.Lake in
  GetString "Storage.Lake.EOL" w' = (Ok "77", w') /\ heap w' = heap Sample.Lake.
Proof.
  intros w'.
  destruct (SetString_GetString "Storage.Lake.EOL" "77" Sample.Lake w')
    as (Hget & _ & _ & _ & Hheap & _).
  - unfold w', Sample.exec. apply run_outcome. vm_refl.
  - split; [exact Hget|exact Hheap].
Defined.

(** X8. [GetType] for a key without type name leaves the register in a
    state in which the key cannot be used: when no type register is named
    by the empty string, [SetString] and [GetString] for the key look up the
    type register of the empty type name and dereference the null pointer
    they get. *)
Theorem GetType_then_SetString `{Platform} (k s : string) (w : World) :
  TypeNames (objects w) !! k = None ->
  Registers (objects w) !! EmptyString = None ->
  let w' := (GetType k w).2 in
  SetString k s w' = (Undefined, w') /\ GetString k w' = (Undefined, w').
Proof.
  intros Hk Hr. unfold GetType, SetString, GetString. unfold_monad.
  rewrite Hk. simpl. rewrite lookup_insert_eq, Hr. split; reflexivity.
Qed.

Lemma GetType_then_SetString_witness :
  let w' := (GetType "Storage.Lake.EOL" Sample.new_World).2 in
  SetString "Storage.Lake.EOL" "123.4" w' = (Undefined, w').
Proof.
  intros w'.
  destruct (GetType_then_SetString "Storage.Lake.EOL" "123.4" Sample.new_World)
    as [Hset _]; [reflexivity|reflexivity|exact Hset].
Defined.


(** X10. When a key registered with type [T1] is registered again with a
    type [T2] of another type name, the type index follows [T2]: [GetType]
    returns its type name, [Get<T2>] returns the new value and [SetString]
    goes to its type register. The value stored with [T1] stays in the type
    register of [T1], where [Get<T1>] still returns it. *)
Theorem Set_again_with_other_type `{Platform} (T1 T2 : regty) (k : string)
    (v1 v2 : rval) (d1 d2 : option string) (s : string) (w : World) :
  type_name T1 <> type_name T2 ->
  let w2 := (bind (Set_ T1 k v1 d1) (fun _ => Set_ T2 k v2 d2) w).2 in
  let w3 := (SetString k s w2).2 in
  bind (Set_ T1 k v1 d1) (fun _ => Set_ T2 k v2 d2) w = (Ok tt, w2) /\
  GetType k w2 = (Ok (type_name T2), w2) /\
  Get T2 k w2 = (Ok v2, w2) /\
  Get T1 k w2 = (Ok v1, w2) /\
  SetString k s w2 = (Ok tt, w3) /\
  GetString k w3 = (Ok s, w3) /\
  (exists r2, Registers (objects w3) !! type_name T2 = Some r2 /\
     StringData r2 !! k = Some s) /\
  Registers (objects w3) !! type_name T1 = Registers (objects w2) !! type_name T1.
Proof.
  intros Hne w2 w3.
  destruct (Set_then T1 k v1 d1 w) as (Hset1 & Hget1 & _).
  set (w1 := (Set_ T1 k v1 d1 w).2) in *.
  destruct (Set_then T2 k v2 d2 w1) as (Hset2 & Hget2 & _ & Htype2 & _ & Hother).
  assert (Hw2 : w2 = (Set_ T2 k v2 d2 w1).2).
  { unfold w2, bind. rewrite Hset1. reflexivity. }
  assert (Hrun : bind (Set_ T1 k v1 d1) (fun _ => Set_ T2 k v2 d2) w
                 = (Ok tt, w2)).
  { unfold bind. rewrite Hset1, Hw2. exact Hset2. }
  rewrite <- Hw2 in Hget2, Htype2, Hother.
  assert (Hset3 : SetString k s w2 = (Ok tt, w3)).
  { apply run_outcome. rewrite Hw2.
    unfold SetString, Set_. unfold_monad. simpl.
    rewrite !lookup_insert_eq. reflexivity. }
  split; [exact Hrun|]. split; [exact Htype2|]. split; [exact Hget2|].
  split.
  { rewrite (Hother T1 k Hne), Hget1. reflexivity. }
  split; [exact Hset3|].
  split; [exact (GetString_SetString_eq k s w2 w3 Hset3)|].
  destruct (SetString_Ok k s w2 w3 Hset3) as (tn & r & Hk & Hr & Ho & _).
  assert (tn = type_name T2).
  { rewrite Hw2 in Hk. unfold Set_ in Hk. unfold_monad. simpl in Hk.
    rewrite lookup_insert_eq in Hk. congruence. }
  subst tn. rewrite Ho. simpl. split.
  - eexists. split; [apply lookup_insert_eq|]. simpl. apply lookup_insert_eq.
  - rewrite lookup_insert_ne by congruence. reflexivity.
Qed.

Lemma Set_again_with_other_type_witness :
  let w2 := (bind (Set_ Sample.unsigned_ptr "x" (Some 8%N) None)
               (fun _ => Set_ (RPointer TBool) "x" (Some 9%N) None)
               Sample.new_World).2 in
  Get Sample.unsigned_ptr "x" w2 = (Ok (Some 8%N), w2) /\
  Get (RPointer TBool) "x" w2 = (Ok (Some 9%N), w2).
Proof.
  intros w2.
  destruct (Set_again_with_other_type Sample.unsigned_ptr (RPointer TBool) "x"
              (Some 8%N) (Some 9%N) None None "true" Sample.new_World)
    as (_ & _ & Hget2 & Hget1 & _).
  - discriminate.
  - split; [exact Hget1|exact Hget2].
Defined.

(* ================================================================== *)
(** * Further properties of the callbacks *)

Section MoreCallbacks.
Context `{Platform}.

Lemma for_each_AddTimeCallback (adds : list (string * N)) (w : World) :
  exists w',
    for_each adds (fun e => AddTimeCallback e.1 e.2) w = (Ok tt, w') /\
    mTimeCallbacks (objects w') =
      fold_left (fun m (e : string * N) => multimap_insert e.1 e.2 m) adds
        (mTimeCallbacks (objects w)) /\
    mVoidCallbacks (objects w') = mVoidCallbacks (objects w).
Proof.
  revert w. induction adds as [|[k f] adds IH]; intros w; simpl.
  - exists w. repeat split.
  - unfold bind at 1. unfold AddTimeCallback at 1. unfold_monad. simpl.
    match goal with |- context [for_each adds _ ?w1] =>
      destruct (IH w1) as (w' & Hrun & Hcb & Hvoid) end.
    exists w'. split; [exact Hrun|]. split; assumption.
Qed.

End MoreCallbacks.

(** X11. Start from a register without time callbacks and add time
    callbacks, of any names and in any order, and let the callbacks added
    under [aName] be such that calling them adds no time callback. Then
    [DoTimeCallbacks(aName, arTime)] calls the callbacks that were added
    under [aName], each with [arTime], in the order in which they were
    added, for as long as they return normally: it does what calling them
    one after the other does, and ends with the first that throws. The void
    callbacks are not concerned. *)
Theorem DoTimeCallbacks_insertion_order `{Platform}
    (call_time : N -> DateTime -> M unit)
    (adds : list (string * N)) (aName : string) (arTime : DateTime)
    (w : World) :
  mTimeCallbacks (objects w) = [] ->
  let group := filter (fun e : string * N => e.1 = aName) adds in
  (forall e, e ∈ group -> quiet mTimeCallbacks (call_time e.2 arTime)) ->
  exists w1,
    for_each adds (fun e => AddTimeCallback e.1 e.2) w = (Ok tt, w1) /\
    mVoidCallbacks (objects w1) = mVoidCallbacks (objects w) /\
    (forall fuel, length group < fuel ->
       DoTimeCallbacks call_time fuel aName arTime w1 =
         Some (for_each group (fun e => call_time e.2 arTime) w1)) /\
    (forall pre e post wi r wi',
       group = (pre ++ e :: post)%list ->
       for_each pre (fun e => call_time e.2 arTime) w1 = (Ok tt, wi) ->
       call_time e.2 arTime wi = (r, wi') -> r <> Ok tt ->
       forall fuel, length group < fuel ->
         DoTimeCallbacks call_time fuel aName arTime w1 = Some (r, wi')).
Proof.
  intros Hempty group Hquiet.
  destruct (for_each_AddTimeCallback adds w) as (w1 & Hadd & Hcb & Hvoid).
  destruct (equal_range_inserts aName adds (mTimeCallbacks (objects w)))
    as [_ Hrange].
  { rewrite Hempty. constructor. }
  simpl in Hrange. rewrite <- Hcb, Hempty in Hrange. simpl in Hrange.
  fold group in Hrange.
  assert (Hdo : forall fuel, length group < fuel ->
            DoTimeCallbacks call_time fuel aName arTime w1 =
              Some (for_each group (fun e => call_time e.2 arTime) w1)).
  { intros fuel Hfuel. unfold DoTimeCallbacks. rewrite <- Hrange.
    apply (do_callbacks_group mTimeCallbacks (fun f => call_time f arTime));
      rewrite Hrange; assumption. }
  exists w1. split; [exact Hadd|]. split; [exact Hvoid|].
  split; [exact Hdo|].
  intros pre e post wi r wi' Hgroup Hpre He Hr fuel Hfuel.
  rewrite (Hdo fuel Hfuel), Hgroup. f_equal.
  apply (for_each_stops (fun e : string * N => call_time e.2 arTime)
           pre post e w1 wi wi' r); assumption.
Qed.

Lemma DoTimeCallbacks_insertion_order_witness :
  exists w1 w2,
    for_each [("Initialise", 4%N); ("Update", 2%N); ("Initialise", 1%N)]
      (fun e => AddTimeCallback e.1 e.2) Sample.new_World = (Ok tt, w1) /\
    DoTimeCallbacks Sample.call_time 3 "Initialise"
      (2005%N : @DateTime Sample.platform) w1 = Some (Ok tt, w2) /\
    calls w2 = [TimeCall 4%N (2005%N : @DateTime Sample.platform);
                TimeCall 1%N (2005%N : @DateTime Sample.platform)].
Proof.
  destruct (DoTimeCallbacks_insertion_order Sample.call_time
              [("Initialise", 4%N); ("Update", 2%N); ("Initialise", 1%N)]
              "Initialise" (2005%N : @DateTime Sample.platform)
              Sample.new_World)
    as (w1 & Hadd & _ & Hdo & _).
  - reflexivity.
  - intros e _ w0. reflexivity.
  - assert (Hw1 : w1 = Sample.exec
              (for_each
                 [("Initialise", 4%N); ("Update", 2%N); ("Initialise", 1%N)]
                 (fun e => AddTimeCallback e.1 e.2)) Sample.new_World).
    { unfold Sample.exec. rewrite Hadd. reflexivity. }
    exists w1. eexists. split; [exact Hadd|]. split.
    + rewrite (Hdo 3) by (vm_compute; lia). reflexivity.
    + rewrite Hw1. vm_refl.
Defined.

(** X12. In a register whose void callbacks are in key order, as they are
    from the constructor on, [AddVoidCallback(n, f)] keeps them in key
    order, leaves the time callbacks as they are, and puts the callback
    behind the callbacks of its name: the group of every other name is as it
    was. Afterwards, if calling the callbacks of the group of [aName] adds
    no void callback, [DoVoidCallbacks(aName)] does what calling the
    callbacks that were in the group before, and then [f] if [n] is
    [aName], one after the other does. *)
Theorem AddVoidCallback_appends `{Platform} (n aName : string) (f : N)
    (w : World) :
  multimap_ok (mVoidCallbacks (objects w)) ->
  let w1 := (AddVoidCallback n f w).2 in
  let group := (equal_range aName (mVoidCallbacks (objects w)) ++
                (if decide (n = aName) then [(n, f)] else []))%list in
  AddVoidCallback n f w = (Ok tt, w1) /\
  multimap_ok (mVoidCallbacks (objects w1)) /\
  mTimeCallbacks (objects w1) = mTimeCallbacks (objects w) /\
  equal_range aName (mVoidCallbacks (objects w1)) = group /\
  (forall call_void fuel,
     (forall e, e ∈ group -> quiet mVoidCallbacks (call_void e.2)) ->
     length group < fuel ->
     DoVoidCallbacks call_void fuel aName w1 =
       Some (for_each group (fun e => call_void e.2) w1)).
Proof.
  intros Hok w1 group.
  assert (Htable : mVoidCallbacks (objects w1)
                   = multimap_insert n f (mVoidCallbacks (objects w)))
    by reflexivity.
  assert (Hgroup : equal_range aName (mVoidCallbacks (objects w1)) = group).
  { rewrite Htable.
    rewrite !equal_range_filter by (try apply multimap_insert_ok; exact Hok).
    rewrite filter_multimap_insert by exact Hok.
    unfold group. rewrite equal_range_filter by exact Hok.
    rewrite (filter_cons _ (n, f) []). simpl.
    destruct (decide (n = aName)); reflexivity. }
  split; [reflexivity|].
  split; [rewrite Htable; apply multimap_insert_ok; exact Hok|].
  split; [reflexivity|]. split; [exact Hgroup|].
  intros call_void fuel Hquiet Hfuel. unfold DoVoidCallbacks.
  rewrite <- Hgroup.
  apply do_callbacks_group; rewrite Hgroup; assumption.
Qed.

Lemma AddVoidCallback_appends_witness :
  (fun rw => (rw.1, calls rw.2)) <$>
    DoVoidCallbacks Sample.call_void 2 "start"
      (AddVoidCallback "start" 3%N Sample.new_World).2
  = Some (Ok tt, [VoidCall 3%N]).
Proof.
  destruct (AddVoidCallback_appends "start" "start" 3%N Sample.new_World)
    as (_ & _ & _ & _ & Hdo).
  - constructor.
  - rewrite (Hdo Sample.call_void 2).
    + vm_refl.
    + intros e He w0.
      apply elem_of_cons in He as [->|He]; [reflexivity|].
      apply elem_of_nil in He. contradiction.
    + vm_compute. lia.
Defined.

(* ================================================================== *)
(** * Further properties of the conversions *)

(** X13. The overloads of [ResetFromString] for a pointer to a variable
    that is not a vector convert first and assign afterwards: when the
    conversion throws, the exception is thrown and nothing is changed,
    whatever the pointer; when it succeeds, the variable at the address gets
    the value and nothing else changes, and a null pointer is dereferenced.
    The overload for a pointer to a vector dereferences a null pointer before
    it converts anything. *)
Theorem scalar_ResetFromString `{Platform} (t : ty) (s : string) (w : World) :
  (forall t', t <> TVector t') ->
  (forall e p, FromString t s w = (Throw e, w) ->
     ResetFromString (RPointer t) p s w = (Throw e, w)) /\
  (forall v a, FromString t s w = (Ok v, w) ->
     ResetFromString (RPointer t) (Some a) s w =
       (Ok tt, with_heap w (<[a := v]> (heap w)))) /\
  (forall v, FromString t s w = (Ok v, w) ->
     ResetFromString (RPointer t) None s w = (Undefined, w)) /\
  (forall t' s', ResetFromString (RPointer (TVector t')) None s' w
                 = (Undefined, w)).
Proof.
  intros Hscalar.
  assert (Hunfold : forall p,
    ResetFromString (RPointer t) p s w =
    bind (FromString t s) (fun v => store p v) w).
  { intros p. destruct t; try reflexivity. exfalso. eapply Hscalar. reflexivity. }
  split; [|split; [|split]].
  - intros e p He. rewrite Hunfold. unfold bind. rewrite He. reflexivity.
  - intros v a Hv. rewrite Hunfold. unfold bind. rewrite Hv. reflexivity.
  - intros v Hv. rewrite Hunfold. unfold bind. rewrite Hv. reflexivity.
  - intros t' s'. reflexivity.
Qed.

Lemma scalar_ResetFromString_witness :
  ResetFromString Sample.unsigned_ptr (Some 8%N) "12x" Sample.Lake
    = (Throw (EResetValue "12x"), Sample.Lake) /\
  ResetFromString Sample.unsigned_ptr (Some 8%N) "12" Sample.Lake
    = (Ok tt, with_heap Sample.Lake (<[8%N := Sample.number 12]> (heap Sample.Lake))).
Proof.
  destruct (scalar_ResetFromString (TLexical "unsigned") "12x" Sample.Lake)
    as (Hthrow & _); [discriminate|].
  destruct (scalar_ResetFromString (TLexical "unsigned") "12" Sample.Lake)
    as (_ & Hok & _); [discriminate|].
  split.
  - apply Hthrow. reflexivity.
  - apply Hok. reflexivity.
Defined.

Section MoreTokens.

Lemma delim_free_app (seps a b : string) :
  delim_free seps (a ++ b) = delim_free seps a && delim_free seps b.
Proof.
  induction a as [|c a IH]; [reflexivity|].
  rewrite append_cons. simpl. rewrite IH, andb_assoc. reflexivity.
Qed.

Lemma append_not_nil (a : string) (c : ascii) :
  (a ++ String c EmptyString)%string <> EmptyString.
Proof. destruct a; [discriminate|]. rewrite append_cons. discriminate. Qed.

Lemma tokens_from_Forall (seps s : string) :
  forall cur, delim_free seps cur = true ->
    Forall (fun tok => tok <> EmptyString /\ delim_free seps tok = true)
      (tokens_from seps cur s).
Proof.
  induction s as [|c s IH]; intros cur Hcur; simpl.
  - destruct (String.eqb_spec cur EmptyString); repeat constructor; assumption.
  - destruct (is_delim seps c) eqn:Hc.
    + destruct (String.eqb_spec cur EmptyString).
      * apply IH. reflexivity.
      * constructor; [split; assumption|]. apply IH. reflexivity.
    + apply IH. rewrite delim_free_app, Hcur. simpl. rewrite Hc. reflexivity.
Qed.

Lemma tokens_from_app_delim (seps s1 s2 : string) (d : ascii) :
  is_delim seps d = true ->
  forall cur,
    tokens_from seps cur (s1 ++ String d s2) =
    (tokens_from seps cur s1 ++ tokens_from seps EmptyString s2)%list.
Proof.
  intros Hd. induction s1 as [|c s1 IH]; intros cur.
  - rewrite append_nil_l. simpl. rewrite Hd.
    destruct (String.eqb cur EmptyString); reflexivity.
  - rewrite append_cons. simpl.
    destruct (is_delim seps c).
    + destruct (String.eqb cur EmptyString); rewrite IH; reflexivity.
    + apply IH.
Qed.

End MoreTokens.

(** X14. The tokenizer of the collection strings cuts at every separator:
    the tokens of a string with a separator at some place are the tokens of
    what is before it followed by the tokens of what is behind it; the empty
    string has no token and a string without separator is its own only
    token. So no token is empty or has a separator in it: the conversion of
    an element never sees either, and an empty place between two separators
    is no element. *)
Theorem tokenizer_spec (seps : string) :
  tokenizer seps EmptyString = [] /\
  (forall s, s <> EmptyString -> delim_free seps s = true ->
     tokenizer seps s = [s]) /\
  (forall s1 d s2, is_delim seps d = true ->
     tokenizer seps (s1 ++ String d s2) =
     (tokenizer seps s1 ++ tokenizer seps s2)%list) /\
  (forall s,
     Forall (fun tok => tok <> EmptyString /\ delim_free seps tok = true)
       (tokenizer seps s)).
Proof.
  unfold tokenizer. split; [reflexivity|]. split; [|split].
  - intros s Hne Hfree. rewrite <- (append_nil_r s) at 1.
    rewrite tokens_from_token by assumption. rewrite append_nil_l. simpl.
    apply String.eqb_neq in Hne. rewrite Hne. reflexivity.
  - intros s1 d s2 Hd. apply tokens_from_app_delim. exact Hd.
  - intros s. apply tokens_from_Forall. reflexivity.
Qed.

(** X15. The string of an instance converts to the instance that is
    registered under the class name and that instance name: the conversion
    throws "Couldn't find object register for type" when no instance of the
    class was ever registered, throws "Couldn't find key" when instances of
    the class are registered but none under this name, and gives the
    registered handle otherwise; in particular it gives the handle of an
    instance registered with [Set] under [RegisterString(class, name)]. *)
Theorem FromString_instance `{Platform} (cls n : string) (w : World) :
  let T := RShared cls in
  let key := RegisterString cls n EmptyString in
  (Registers (objects w) !! type_name T = None ->
   FromString (TShared cls) n w =
     (Throw (ETypeRegisterNotFound (type_name T)), w)) /\
  (forall r, Registers (objects w) !! type_name T = Some r ->
     Data r !! key = None ->
     FromString (TShared cls) n w = (Throw (EKeyNotFound key), w)) /\
  (forall r h, Registers (objects w) !! type_name T = Some r ->
     Data r !! key = Some h ->
     FromString (TShared cls) n w = (Ok (VShared h), w)) /\
  (forall o d, let w' := (Set_ T key (Some o) d w).2 in
     FromString (TShared cls) n w' = (Ok (VShared (Some o)), w')).
Proof.
  intros T key.
  split; [|split; [|split]].
  - intros Hr. simpl. unfold FindInstance, Get, Register_Get. unfold_monad.
    fold T. rewrite Hr. reflexivity.
  - intros r Hr Hd. simpl. unfold FindInstance, Get, Register_Get.
    unfold_monad. fold T key. rewrite Hr, Hd. reflexivity.
  - intros r h Hr Hd. simpl. unfold FindInstance, Get, Register_Get.
    unfold_monad. fold T key. rewrite Hr, Hd. reflexivity.
  - intros o d w'.
    destruct (Set_then T key (Some o) d w) as (_ & Hget & _).
    simpl. unfold bind, FindInstance. fold T key w'.
    fold w' in Hget. rewrite Hget. reflexivity.
Qed.

(* ================================================================== *)
(** * What [ResetFromString] and [Reset] leave alone *)

Section Frames.
Context `{Platform}.

(** An invariant of the body of a loop holds when the loop is left, however
    it is left. *)
Lemma for_each_always {A : Type} (l : list A) (body : A -> M unit)
    (I : World -> Prop) :
  (forall y w0, y ∈ l -> I w0 -> I (body y w0).2) ->
  forall w, I w -> I (for_each l body w).2.
Proof.
  induction l as [|x l IH]; intros Hbody w Hw; [exact Hw|].
  simpl. unfold bind.
  pose proof (Hbody x w (list_elem_of_here _ _) Hw) as Hx.
  destruct (body x w) as [[[]|e|] w1]; simpl in *; try exact Hx.
  apply IH; [|exact Hx].
  intros y w0 Hy. apply Hbody. apply list_elem_of_further. exact Hy.
Qed.

Lemma bind_always {A B : Type} (m : M A) (k : A -> M B) (I : World -> Prop)
    (w : World) :
  I (m w).2 -> (forall a w1, I w1 -> I (k a w1).2) -> I (bind m k w).2.
Proof.
  intros Hm Hk. unfold bind.
  destruct (m w) as [[a|e|] w1]; simpl in *; auto.
Qed.

Lemma reads_same_world {A : Type} (m : M A) (w : World) :
  reads_objects m -> (m w).2 = w.
Proof. intros Hm. rewrite (reads_objects_self m w Hm). reflexivity. Qed.

Lemma writes_at_most_refl (p : rval) (w : World) : writes_at_most p w w.
Proof. repeat split. Qed.

Lemma writes_at_most_trans (p : rval) (w1 w2 w3 : World) :
  writes_at_most p w1 w2 -> writes_at_most p w2 w3 -> writes_at_most p w1 w3.
Proof.
  intros (Ho & Hc & Hn & Hh) (Ho' & Hc' & Hn' & Hh').
  repeat split; try congruence.
  intros a Ha. rewrite Hh', Hh by assumption. reflexivity.
Qed.

Lemma store_writes_at_most (p : rval) (v : val) (w : World) :
  writes_at_most p w (store p v w).2.
Proof.
  destruct p as [a|]; [|apply writes_at_most_refl].
  repeat split. intros a' Ha'. simpl.
  apply lookup_insert_ne. congruence.
Qed.

Lemma push_back_writes_at_most (p : rval) (v : val) (w : World) :
  writes_at_most p w (push_back p v w).2.
Proof.
  destruct p as [a|]; [|apply writes_at_most_refl].
  simpl. destruct (heap w !! a) as [[]|]; try apply writes_at_most_refl.
  repeat split. intros a' Ha'. simpl.
  apply lookup_insert_ne. congruence.
Qed.

Lemma FromString_then (t : ty) (s : string) (k : val -> M unit) (p : rval)
    (w0 w : World) :
  (forall v w1, writes_at_most p w1 (k v w1).2) ->
  writes_at_most p w0 w ->
  writes_at_most p w0 (bind (FromString t s) k w).2.
Proof.
  intros Hk Hw. unfold bind.
  rewrite (FromString_same_world t s w).
  destruct ((FromString t s w).1) as [v| |]; simpl; try exact Hw.
  eapply writes_at_most_trans; [exact Hw|apply Hk].
Qed.

Lemma ResetFromString_pointer_writes (t : ty) (p : rval) (s : string)
    (w : World) :
  writes_at_most p w (ResetFromString_pointer t p s w).2.
Proof.
  assert (Hscalar : writes_at_most p w
            (bind (FromString t s) (fun v => store p v) w).2).
  { apply FromString_then; [|apply writes_at_most_refl].
    intros v w1. apply store_writes_at_most. }
  destruct t; try exact Hscalar.
  unfold ResetFromString_pointer.
  apply (bind_always _ _ (writes_at_most p w)).
  - apply store_writes_at_most.
  - intros _ w1 Hw1.
    apply (for_each_always _ _ (writes_at_most p w)); [|exact Hw1].
    intros tok w2 _ Hw2. apply FromString_then; [|exact Hw2].
    intros v w3. apply push_back_writes_at_most.
Qed.

Lemma ResetFromString_other (T : regty) (p : rval) (s : string) (w : World) :
  is_pointer T = false -> (ResetFromString T p s w).2 = w.
Proof.
  destruct T as [t|cls|cls c]; [discriminate| |reflexivity].
  intros _. simpl. unfold bind, FindInstance.
  rewrite (reads_objects_self _ w (reads_Get (RShared cls) _)).
  destruct (Get _ _ w).1; reflexivity.
Qed.

Lemma ResetFromString_writes (T : regty) (p : rval) (s : string) (w : World) :
  writes_at_most p w (ResetFromString T p s w).2.
Proof.
  destruct (is_pointer T) eqn:HT.
  - destruct T; try discriminate. apply ResetFromString_pointer_writes.
  - rewrite ResetFromString_other by exact HT. apply writes_at_most_refl.
Qed.

Lemma for_each_skip {A : Type} (l : list A) (body : A -> M unit) (w : World) :
  (forall y, y ∈ l -> body y w = (Ok tt, w)) ->
  for_each l body w = (Ok tt, w).
Proof.
  induction l as [|x l IH]; intros Hbody; [reflexivity|].
  simpl. unfold bind. rewrite (Hbody x (list_elem_of_here _ _)).
  apply IH. intros y Hy. apply Hbody. apply list_elem_of_further. exact Hy.
Qed.

End Frames.

(** X16. [ResetFromString], whichever overload is selected and however it
    is left, changes no register, no remembered string, no callback and no
    variable other than the one its pointer points to. The overloads for a
    member function pointer and for an instance held by value change
    nothing at all. *)
Theorem ResetFromString_frame `{Platform} (T : regty) (p : rval) (s : string)
    (w : World) :
  let w' := (ResetFromString T p s w).2 in
  objects w' = objects w /\ calls w' = calls w /\
  next_object w' = next_object w /\
  (forall a, p <> Some a -> heap w' !! a = heap w !! a) /\
  (is_pointer T = false -> w' = w).
Proof.
  intros w'.
  destruct (ResetFromString_writes T p s w) as (Ho & Hc & Hn & Hh).
  repeat split; try assumption.
  apply ResetFromString_other.
Qed.

(** X17. [Reset], on an object register in which every key with a
    remembered string has its value, and however it is left, changes nothing
    of the object register and no variable but those registered by pointer
    under a key with a remembered string. *)
Theorem Reset_frame `{Platform} (w : World) :
  data_ok (objects w) ->
  let w' := (Reset_ w).2 in
  objects w' = objects w /\ calls w' = calls w /\
  next_object w' = next_object w /\
  (forall a,
     (forall tn r k, Registers (objects w) !! tn = Some r ->
        is_pointer (elem r) = true -> is_Some (StringData r !! k) ->
        Data r !! k <> Some (Some a)) ->
     heap w' !! a = heap w !! a).
Proof.
  intros Hdata w'.
  set (I := fun w1 : World =>
    objects w1 = objects w /\ calls w1 = calls w /\
    next_object w1 = next_object w /\
    (forall a,
       (forall tn r k, Registers (objects w) !! tn = Some r ->
          is_pointer (elem r) = true -> is_Some (StringData r !! k) ->
          Data r !! k <> Some (Some a)) ->
       heap w1 !! a = heap w !! a)).
  change (I w').
  assert (Hw : I w) by (repeat split).
  unfold w', Reset_, bind, get_objects.
  apply (for_each_always _ _ I); [|exact Hw].
  intros [tn r] w1 Hin Hw1.
  apply elem_of_std_map_items in Hin. simpl.
  unfold Register_Reset, bind, get_objects.
  destruct Hw1 as (Ho & Hc & Hn & Hh).
  rewrite Ho, Hin.
  apply (for_each_always _ _ I); [|repeat split; assumption].
  intros [k s] w2 Hks (Ho2 & Hc2 & Hn2 & Hh2).
  apply elem_of_std_map_items in Hks. simpl.
  destruct (Hdata tn r Hin k s Hks) as [v Hv].
  unfold bind.
  rewrite (Data_subscript_found tn k r v w2) by (rewrite ?Ho2; assumption).
  destruct (ResetFromString_writes (elem r) v s w2) as (Ho3 & Hc3 & Hn3 & Hh3).
  repeat split; try congruence.
  intros a Ha. rewrite <- (Hh2 a Ha).
  destruct (is_pointer (elem r)) eqn:Hptr.
  - apply Hh3. intros ->. eapply Ha; eauto.
  - rewrite ResetFromString_other by exact Hptr. reflexivity.
Qed.

Lemma Reset_frame_witness :
  objects (Reset_ Sample.Lake).2 = objects Sample.Lake.
Proof.
  apply Reset_frame.
  apply (bool_decide_unpack _). vm_compute. exact I.
Defined.

(** X18. [Reset] on an object register in which no string is remembered,
    as after registering every key without a default value, returns normally
    and changes nothing, whatever is registered. *)
Theorem Reset_without_strings `{Platform} (w : World) :
  no_strings (objects w) -> Reset_ w = (Ok tt, w).
Proof.
  intros Hnone. unfold Reset_, bind, get_objects.
  apply for_each_skip. intros [tn r] Hin.
  apply elem_of_std_map_items in Hin. simpl.
  unfold Register_Reset, bind, get_objects. rewrite Hin.
  rewrite (Hnone tn r Hin), std_map_items_empty. reflexivity.
Qed.

Lemma Reset_without_strings_witness :
  Reset_ Sample.Lake_made = (Ok tt, Sample.Lake_made).
Proof.
  apply Reset_without_strings.
  apply (bool_decide_unpack _). vm_compute. exact I.
Defined.

(* ================================================================== *)
(** * Further properties of the factory *)

Section MoreFields.
Context `{Platform}.

(** The values of the registers decide what [Get] returns. *)
Lemma Get_same_values (T : regty) (k : string) (w w' : World) :
  (forall tn, Data <$> Registers (objects w') !! tn =
              Data <$> Registers (objects w) !! tn) ->
  Get T k w' = ((Get T k w).1, w').
Proof.
  intros Hsame. unfold Get, Register_Get. unfold_monad.
  specialize (Hsame (type_name T)).
  destruct (Registers (objects w') !! type_name T) as [r'|],
           (Registers (objects w) !! type_name T) as [r|];
    simpl in Hsame; try discriminate; [|reflexivity].
  injection Hsame as ->. reflexivity.
Qed.

(** Setting the strings of fields changes no value and no variable. *)
Lemma for_each_set_field_values (cls name : string)
    (l : list (string * string)) (w w' : World) :
  for_each l (set_field cls name) w = (Ok tt, w') ->
  heap w' = heap w /\
  (forall tn, Data <$> Registers (objects w') !! tn =
              Data <$> Registers (objects w) !! tn).
Proof.
  apply (for_each_preserve l (set_field cls name)
           (fun w0 => heap w0 = heap w /\
              (forall tn, Data <$> Registers (objects w0) !! tn =
                          Data <$> Registers (objects w) !! tn))).
  - intros nv w0 w0' _ [Hh Hd] Hset.
    apply SetString_Ok in Hset.
    destruct Hset as (tn & r & _ & Hr & Ho & Hh' & _).
    split; [congruence|].
    intros tn'. rewrite <- Hd, Ho. simpl.
    destruct (decide (tn' = tn)) as [->|Hne].
    + rewrite lookup_insert_eq, Hr. reflexivity.
    + rewrite lookup_insert_ne by congruence. reflexivity.
  - split; reflexivity.
Qed.

End MoreFields.

(** X19. Let the factory make an object of a class whose maker is
    [MakeObject<T>], with an instance name that is not empty, and let the
    making and registration of the object return normally and leave a type
    index whose type names all have their register and which has the key of
    every field of the field mapping. Then [Make] returns normally. After it
    [GetString] returns, for the key of each field, the string of the field
    mapping; no variable has been assigned yet: the variables, the registered
    values and the type index are as the registration left them. *)
Theorem Make_declared_fields `{Platform} (f : ObjectFactory) (T : ObjectClass)
    (cls name : string) (ini : gmap string string) (w w1 : World) :
  mMakers f !! cls = Some (MakeObject T) ->
  make_instance T name w = (Ok tt, w1) ->
  index_ok (objects w1) ->
  name <> EmptyString ->
  map_Forall (fun g _ =>
    is_Some (TypeNames (objects w1) !! RegisterString cls name g)) ini ->
  exists w2,
    Make f cls name ini w = (Ok tt, w2) /\
    (forall g vg, ini !! g = Some vg ->
       GetString (RegisterString cls name g) w2 = (Ok vg, w2)) /\
    heap w2 = heap w1 /\
    TypeNames (objects w2) = TypeNames (objects w1) /\
    (forall T' k, Get T' k w2 = ((Get T' k w1).1, w2)).
Proof.
  intros Hmaker Hinst Hok Hname Hdecl.
  assert (Hmake : Make f cls name ini w =
            for_each (std_map_items ini) (try_set_field cls name) w1).
  { unfold Make. rewrite Hmaker, MakeObject_unfold. unfold bind at 1.
    rewrite Hinst. reflexivity. }
  destruct (for_each_set_field_declared cls name (std_map_items ini) w1 Hok)
    as (w2 & Hrun & Htypes & _).
  { apply Forall_forall. intros [g vg] Hin.
    apply elem_of_std_map_items in Hin. exact (Hdecl g vg Hin). }
  exists w2. split.
  { rewrite Hmake. apply for_each_try_set_field_Ok. exact Hrun. }
  destruct (for_each_set_field_strings cls name (std_map_items ini) Hname
              (NoDup_std_map_items ini) w1 w2 Hrun) as [Hstrings _].
  destruct (for_each_set_field_values cls name _ w1 w2 Hrun) as [Hheap Hdata].
  split.
  { intros g vg Hg. apply Hstrings. apply elem_of_std_map_items. exact Hg. }
  split; [exact Hheap|]. split; [exact Htypes|].
  intros T' k. apply Get_same_values. exact Hdata.
Qed.

Lemma Make_declared_fields_witness :
  exists w2,
    Make Sample.factory "Storage" "Lake"
      (<["EOL" := "5"]> (<["Sources" := "[Lake]"]> ∅)) Sample.new_World
      = (Ok tt, w2) /\
    GetString "Storage.Lake.Sources" w2 = (Ok "[Lake]", w2) /\
    heap w2 = heap Sample.Lake_made.
Proof.
  destruct (Make_declared_fields Sample.factory Sample.Storage
              "Storage" "Lake"
              (<["EOL" := "5"]> (<["Sources" := "[Lake]"]> ∅))
              Sample.new_World Sample.Lake_made)
    as (w2 & Hmake & Hstrings & Hheap & _).
  - reflexivity.
  - unfold Sample.Lake_made, Sample.exec. apply run_outcome. vm_refl.
  - apply (bool_decide_unpack _). vm_compute. exact I.
  - discriminate.
  - apply (bool_decide_unpack _). vm_compute. exact I.
  - exists w2. split; [exact Hmake|]. split; [|exact Hheap].
    apply (Hstrings "Sources" "[Lake]"). vm_refl.
Defined.

(** X20. A factory makes the classes for which a maker was added. [Make]
    for a class name without maker throws "Class ... not registered" and
    changes nothing; a new factory has no maker. After [AddMaker], [Make]
    for the class name runs the maker added last for it, with the class
    name, the instance name and the field mapping, and [Make] for any other
    class name does what it did. A base class that is not the empty string
    is recorded for the class name; with the empty string, the default, the
    base class recorded before stays. [AddMaker<T>()] adds [MakeObject<T>]
    under the class name of [T], and records no base class. *)
Theorem AddMaker_Make `{Platform} (f : ObjectFactory) (c : string) (m : Maker)
    (b n : string) (ini : gmap string string) (w : World) :
  (mMakers f !! c = None ->
   Make f c n ini w = (Throw (EClassNotRegistered c), w)) /\
  Make new_ObjectFactory c n ini w = (Throw (EClassNotRegistered c), w) /\
  Make (AddMaker f c m b) c n ini w = m c n ini w /\
  (forall m' b', Make (AddMaker (AddMaker f c m' b') c m b) c n ini w
                 = m c n ini w) /\
  (forall c', c' <> c -> Make (AddMaker f c m b) c' n ini w = Make f c' n ini w) /\
  (b <> EmptyString -> mClassRelationships (AddMaker f c m b) !! c = Some b) /\
  mClassRelationships (AddMaker f c m EmptyString) = mClassRelationships f /\
  (forall c', c' <> c ->
     mClassRelationships (AddMaker f c m b) !! c' = mClassRelationships f !! c') /\
  (forall T, Make (AddMaker_T f T) (class_name T) n ini w
             = MakeObject T (class_name T) n ini w) /\
  (forall T, mClassRelationships (AddMaker_T f T) = mClassRelationships f).
Proof.
  split; [intros Hf; unfold Make, Maker in *; rewrite Hf; reflexivity|].
  unfold Make, AddMaker_T, AddMaker, Maker in *. simpl.
  split; [rewrite lookup_empty; reflexivity|].
  split; [rewrite lookup_insert_eq; reflexivity|].
  split; [intros m' b'; rewrite lookup_insert_eq; reflexivity|].
  split; [intros c' Hc'; rewrite lookup_insert_ne by congruence; reflexivity|].
  split.
  { intros Hb. apply String.eqb_neq in Hb. rewrite Hb.
    apply lookup_insert_eq. }
  split; [reflexivity|].
  split.
  { intros c' Hc'. destruct (String.eqb b EmptyString); [reflexivity|].
    apply lookup_insert_ne. congruence. }
  split; [intros T; rewrite lookup_insert_eq; reflexivity|].
  intros T. reflexivity.
Qed.

(** X21. [SetInstance] hands the simulation of the object register to the
    method [Register] of the object. On an object register without
    simulation, as the constructor leaves it until [SetSimulation] is
    called, it dereferences a null pointer, after the instance is registered
    and before any member is: the instance is found under its class and
    name, and the state is that of the [Set] of the instance. [MakeObject],
    once the object is constructed, and so [Make] for its class, end there
    too; no field is set. *)
Theorem SetInstance_without_simulation `{Platform} (T : ObjectClass)
    (aName : string) (aPtr : N) (w : World) :
  mpSimulation (objects w) = None ->
  let key := RegisterString (class_name T) aName EmptyString in
  let w' := (Set_ (RShared (class_name T)) key (Some aPtr) None w).2 in
  SetInstance T aName aPtr w = (Undefined, w') /\
  FindInstance (class_name T) aName w' = (Ok (Some aPtr), w') /\
  (forall cls ini w0,
     new_object T aName w0 = (Ok aPtr, w) ->
     MakeObject T cls aName ini w0 = (Undefined, w') /\
     (forall f, mMakers f !! cls = Some (MakeObject T) ->
        Make f cls aName ini w0 = (Undefined, w'))).
Proof.
  intros Hsim key w'.
  destruct (Set_then (RShared (class_name T)) key (Some aPtr) None w)
    as (Hset & Hget & _).
  fold w' in Hset, Hget.
  assert (Hw' : mpSimulation (objects w') = None).
  { unfold w', Set_. unfold_monad. simpl. exact Hsim. }
  assert (Hinst : SetInstance T aName aPtr w = (Undefined, w')).
  { unfold SetInstance. fold key. unfold bind at 1. rewrite Hset.
    unfold GetSimulation. unfold_monad. rewrite Hw'. reflexivity. }
  split; [exact Hinst|]. split; [exact Hget|].
  intros cls ini w0 Hnew.
  assert (Hmake : MakeObject T cls aName ini w0 = (Undefined, w')).
  { unfold MakeObject. unfold bind at 1. rewrite Hnew.
    unfold bind at 1. rewrite Hinst. reflexivity. }
  split; [exact Hmake|].
  intros f Hf. unfold Make. rewrite Hf. exact Hmake.
Qed.

Lemma SetInstance_without_simulation_witness :
  let w : @World Sample.platform :=
    {| objects := new_ObjectRegister; heap := ∅; next_object := 1;
       calls := [] |} in
  (SetInstance Sample.Storage "Lake" 1%N w).1 = Undefined /\
  (HasKey "Storage.Lake.EOL" (SetInstance Sample.Storage "Lake" 1%N w).2).1
    = Ok false.
Proof.
  intros w.
  destruct (SetInstance_without_simulation Sample.Storage "Lake" 1%N w)
    as (Hinst & _); [reflexivity|].
  rewrite Hinst. split; [reflexivity|]. vm_refl.
Defined.

(* ================================================================== *)
(** * [Reset], for every remembered string *)

(** X22. Let [Reset] return normally on an object register in which every
    key with a remembered string has its value. Then for every key that is
    registered as a pointer to a variable of type [U] and has a remembered
    string, the variable holds the value which converting the string to [U]
    gives, provided no other pointer with a remembered string points to the
    same variable. *)
Theorem Reset_assigns_all `{Platform} (w w' : World) :
  data_ok (objects w) ->
  Reset_ w = (Ok tt, w') ->
  forall tn r k s t a,
    Registers (objects w) !! tn = Some r ->
    elem r = RPointer t ->
    Data r !! k = Some (Some a) ->
    StringData r !! k = Some s ->
    sole_target (objects w) a tn k ->
    exists v, FromString t s w' = (Ok v, w') /\ heap w' !! a = Some v.
Proof.
  intros Hdata Hrun tn r k s t a Hr Helem Hval Hstr Hsole.
  destruct (Reset_derives (objects w) w a tn k s t r eq_refl Hdata Hsole
              Hr Helem Hval Hstr w w' eq_refl Hrun) as [Ho (v & Hv & Ha)].
  exists v. split; [|exact Ha].
  apply (FromString_frame t s (Ok v) w w' Ho Hv).
Qed.

Lemma Reset_assigns_all_witness :
  heap (Sample.exec Reset_ Sample.Lake) !! 8%N = Some (Sample.number 123).
Proof.
  assert (Hr : is_Some (Registers (objects Sample.Lake) !! "unsigned *")).
  { apply (bool_decide_unpack _). vm_compute. exact I. }
  destruct Hr as [r Hr].
  assert (Helem : elem <$> Registers (objects Sample.Lake) !! "unsigned *"
                  = Some Sample.unsigned_ptr) by vm_refl.
  assert (Hdata : (Registers (objects Sample.Lake) !! "unsigned *")
                    ≫= (fun r => Data r !! "Storage.Lake.EOL")
                  = Some (Some 8%N)) by vm_refl.
  assert (Hstr : (Registers (objects Sample.Lake) !! "unsigned *")
                    ≫= (fun r => StringData r !! "Storage.Lake.EOL")
                  = Some "123") by vm_refl.
  rewrite Hr in Helem, Hdata, Hstr. simpl in Helem, Hdata, Hstr.
  injection Helem as Helem.
  destruct (Reset_assigns_all Sample.Lake (Sample.exec Reset_ Sample.Lake))
    with (tn := "unsigned *") (r := r) (k := "Storage.Lake.EOL") (s := "123")
         (t := TLexical "unsigned") (a := 8%N)
    as (v & Hconv & Hheap).
  - apply (bool_decide_unpack _). vm_compute. exact I.
  - unfold Sample.exec. apply run_outcome. vm_refl.
  - exact Hr.
  - exact Helem.
  - exact Hdata.
  - exact Hstr.
  - apply (bool_decide_unpack _). vm_compute. exact I.
  - rewrite Hheap. f_equal.
    assert (Hv : (FromString (TLexical "unsigned") "123"
                    (Sample.exec Reset_ Sample.Lake)).1
                 = Ok (Sample.number 123)) by vm_refl.
    rewrite Hconv in Hv. injection Hv as ->. reflexivity.
Defined.
